(** * CF.STL_Algorithm: the three hand-written sorts of [algorithm.cpp]

    [selection_sort], [quicksort] and [merge_sort] are templates over an
    iterator pair; they reorder a caller-owned sequence in place, using the
    element type's [operator<] and the <algorithm> primitives
    [std::iter_swap], [std::min_element], [std::partition] and
    [std::inplace_merge].

    Embedding.  A sequence is a [list T]; a cursor (iterator) is a position
    [nat] into it; a range is a pair of cursors [first], [last], half open.
    In-place mutation is explicit state passing: every routine takes the
    sequence and returns the new one.  The recursion of [quicksort] and
    [merge_sort] and the [i != end] loop of [selection_sort] are bounded by
    an explicit budget (fuel); [None] means that the call did not return
    within the budget, or dereferenced a cursor outside the sequence. *)

From Stdlib Require Import ZArith Lia.
From stdpp Require Import base tactics option list sorting strings.

(** ** The element type's [operator<] *)

Class Less (T : Type) := less : T → T → bool.

(** A strict weak ordering: irreflexive, transitive, and with a transitive
    incomparability relation. *)
Class StrictWeakOrder (T : Type) `{Less T} : Prop := {
  less_irrefl : ∀ x : T, less x x = false;
  less_trans : ∀ x y z : T, less x y = true → less y z = true → less x z = true;
  incomp_trans : ∀ x y z : T,
    less x y = false → less y x = false →
    less y z = false → less z y = false →
    less x z = false ∧ less z x = false
}.

(** [equiv x y]: neither [x < y] nor [y < x]. *)
Definition equiv {T} `{Less T} (x y : T) : bool :=
  negb (less x y) && negb (less y x).

(** ** Ranges over a sequence *)

Section Ranges.
Context {T : Type}.

(** [first, last) is a range of [s]. *)
Definition valid_range (first last : nat) (s : list T) : Prop :=
  first ≤ last ∧ last ≤ length s.

(** The elements of [first, last), in order. *)
Definition slice (first last : nat) (s : list T) : list T :=
  take (last - first) (drop first s).

(** [s'] has the length of [s] and agrees with it at every position
    outside [first, last). *)
Definition frame (first last : nat) (s s' : list T) : Prop :=
  length s' = length s ∧
  ∀ k, k < first ∨ last ≤ k → s' !! k = s !! k.
End Ranges.

(** ** The limits of [int] (32 bits) *)

Definition INT_MAX : Z := 2147483647.

(** ** The <algorithm> primitives the three sorts are built on

    These are the C++ standard library's, not the repository's; they are
    modelled after the forward-iterator algorithms of the C++ reference that
    the source file cites, and agree with what the source file's own
    comments say of them: [iter_swap] swaps the values of the elements the
    two iterators point to, [min_element] finds the smallest element of the
    range, [partition] puts the elements that satisfy the predicate before
    the others without preserving relative order, [inplace_merge] merges
    two consecutive sorted ranges and is stable.  [quicksort] is called on
    a [std::forward_list], so it gets the forward-iterator [partition].
    A loop [for (it = a; it != b; ++it)] over a valid
    range visits the positions [a, a+1, ..., b-1]: it is written as a
    recursion on the number of positions left.  A comparison or a swap that
    would dereference a cursor outside the sequence (undefined behaviour in
    C++) yields [false], resp. changes nothing. *)

Module std.
Section Primitives.
Context {T : Type} `{Less T}.

(** [std::iter_swap(a, b)]: exchange the two elements pointed to. *)
Definition iter_swap (a b : nat) (s : list T) : list T :=
  match s !! a, s !! b with
  | Some x, Some y => <[b:=x]> (<[a:=y]> s)
  | _, _ => s
  end.

(** [*i < *j] *)
Definition less_at (s : list T) (i j : nat) : bool :=
  match s !! i, s !! j with
  | Some x, Some y => less x y
  | _, _ => false
  end.

(** [p( *i)] *)
Definition holds_at (p : T → bool) (s : list T) (i : nat) : bool :=
  match s !! i with
  | Some x => p x
  | None => false
  end.

(** [std::min_element(first, last)]:
<<
    if (first == last) return last;
    ForwardIt smallest = first;
    while (++first != last)
      if ( *first < *smallest) smallest = first;
    return smallest;
>> *)
Fixpoint min_element_loop (n it smallest : nat) (s : list T) : nat :=
  match n with
  | 0 => smallest
  | S n' =>
      min_element_loop n' (S it)
        (if less_at s it smallest then it else smallest) s
  end.

Definition min_element (first last : nat) (s : list T) : nat :=
  if first =? last then last
  else min_element_loop (last - S first) (S first) first s.

(** [std::find_if_not(first, last, p)]: the first position of the range
    whose element does not satisfy [p], or [last]. *)
Fixpoint find_if_not_loop (n it : nat) (p : T → bool) (s : list T) : nat :=
  match n with
  | 0 => it
  | S n' => if holds_at p s it then find_if_not_loop n' (S it) p s else it
  end.

Definition find_if_not (first last : nat) (p : T → bool) (s : list T) : nat :=
  find_if_not_loop (last - first) first p s.

(** [std::partition(first, last, p)] for forward iterators:
<<
    first = std::find_if_not(first, last, p);
    if (first == last) return first;
    for (auto i = std::next(first); i != last; ++i)
      if (p( *i)) { std::iter_swap(i, first); ++first; }
    return first;
>>
    It returns the reordered sequence and the partition point. *)
Fixpoint partition_loop (n i first : nat) (p : T → bool) (s : list T)
  : list T * nat :=
  match n with
  | 0 => (s, first)
  | S n' =>
      if holds_at p s i
      then partition_loop n' (S i) (S first) p (iter_swap i first s)
      else partition_loop n' (S i) first p s
  end.

Definition partition (first last : nat) (p : T → bool) (s : list T)
  : list T * nat :=
  let first' := find_if_not first last p s in
  if first' =? last then (s, first')
  else partition_loop (last - S first') (S first') first' p s.

(** [std::merge] of two sequences: the next element comes from the second
    one only when it is strictly less than the head of the first one. *)
Fixpoint merge (l1 : list T) : list T → list T :=
  fix merge_right (l2 : list T) : list T :=
    match l1, l2 with
    | [], _ => l2
    | _, [] => l1
    | x1 :: l1', x2 :: l2' =>
        if less x2 x1 then x2 :: merge_right l2' else x1 :: merge l1' l2
    end.

(** Assign the elements of [l] to the positions [out], [out + 1], ... *)
Fixpoint write_back (out : nat) (l : list T) (s : list T) : list T :=
  match l with
  | [] => s
  | x :: l' => write_back (S out) l' (<[out:=x]> s)
  end.

(** [std::inplace_merge(first, middle, last)], with a buffer: the merge of
    [first, middle) and [middle, last) is formed and assigned back to
    [first, last), element by element. *)
Definition inplace_merge (first middle last : nat) (s : list T) : list T :=
  write_back first (merge (slice first middle s) (slice middle last s)) s.
End Primitives.

(** *** Primitives that read two ranges

    The helper functions of the repository ([in_quote],
    [consecutive_values], [mirror_ends], [is_palindrome]) only read their
    ranges: a range is passed as the list of its elements, and a returned
    cursor is its distance from the first cursor of the range ([last] is
    the length of the range). *)

Section Comparing.
Context {T : Type} `{EqDecision T}.

(** [std::equal(first1, last1, first2)]:
<<
    for (; first1 != last1; ++first1, ++first2)
      if (!( *first1 == *first2)) return false;
    return true;
>>
    [l1] is [first1, last1), [l2] the elements from [first2] on; reading
    past the end of [l2] is undefined in C++ and gives [false] here. *)
Fixpoint equal (l1 l2 : list T) : bool :=
  match l1 with
  | [] => true
  | x :: l1' =>
      match l2 with
      | [] => false
      | y :: l2' => if decide (x = y) then equal l1' l2' else false
      end
  end.

(** [std::mismatch(first1, last1, first2).first]:
<<
    while (first1 != last1 && *first1 == *first2) { ++first1; ++first2; }
    return std::make_pair(first1, first2);
>> *)
Fixpoint mismatch (l1 l2 : list T) : nat :=
  match l1, l2 with
  | x :: l1', y :: l2' => if decide (x = y) then S (mismatch l1' l2') else 0
  | _, _ => 0
  end.

(** One attempt of [std::search] to read the needle at a position of the
    haystack: the inner loop
<<
    for (ForwardIt2 s_it = s_first; ; ++it, ++s_it) {
      if (s_it == s_last) return first;
      if (it == last) return last;
      if (!( *it == *s_it)) break;
    }
>> *)
Inductive attempt := Matched | Exhausted | Differs.

Fixpoint search_at (hay needle : list T) {struct needle} : attempt :=
  match needle with
  | [] => Matched
  | y :: needle' =>
      match hay with
      | [] => Exhausted
      | x :: hay' => if decide (x = y) then search_at hay' needle' else Differs
      end
  end.

(** [std::search(first, last, s_first, s_last)]: the outer loop
    [while (true) { ...; ++first; }]; [hay] holds the elements from
    [first] on. *)
Fixpoint search_from (first : nat) (hay needle : list T) : nat :=
  match search_at hay needle with
  | Matched => first
  | Exhausted => first + length hay
  | Differs =>
      match hay with
      | [] => first
      | _ :: hay' => search_from (S first) hay' needle
      end
  end.

Definition search (hay needle : list T) : nat := search_from 0 hay needle.

(** [std::search_n(first, last, count, value)]:
<<
    if (count <= 0) return first;
    for (; first != last; ++first) {
      if (!( *first == value)) continue;
      ForwardIt candidate = first;
      for (Size cur_count = 1; true; ++cur_count) {
        if (cur_count >= count) return candidate;
        ++first;
        if (first == last) return last;
        if (!( *first == value)) break;
      }
    }
    return last;
>>
    The cursor [first] walks the range once; [run] is the [cur_count] of
    the candidate that ends just before [first] (0 when there is none), so
    the candidate is [first - run]. *)
Fixpoint search_n_walk (count : nat) (value : T) (first run : nat)
    (l : list T) : nat :=
  match l with
  | [] => first
  | x :: l' =>
      if decide (x = value) then
        if count <=? S run then first - run
        else search_n_walk count value (S first) (S run) l'
      else search_n_walk count value (S first) 0 l'
  end.

Definition search_n (l : list T) (count : Z) (value : T) : nat :=
  if (count <=? 0)%Z then 0
  else search_n_walk (Z.to_nat count) value 0 0 l.
End Comparing.

(** *** Primitives on [int]s and generators *)


Section Generating.
Context {St A : Type}.

(** [std::generate(first, last, g)]:
<<
    for (; first != last; ++first) *first = g();
>>
    The generator [g] has a state of its own: a call takes the state and
    gives the value and the next state, or [None] when it is undefined. *)
Fixpoint generate_loop (n first : nat) (g : St → option (A * St)) (st : St)
    (v : list A) : option (list A * St) :=
  match n with
  | 0 => Some (v, st)
  | S n' =>
      '(x, st') ← g st;
      generate_loop n' (S first) g st' (<[first:=x]> v)
  end.

Definition generate (first last : nat) (g : St → option (A * St)) (st : St)
    (v : list A) : option (list A * St) :=
  generate_loop (last - first) first g st v.
End Generating.

(** [std::iota(first, last, value)] on [int]s:
<<
    for (; first != last; ++first, ++value) *first = value;
>>
    [++value] on [INT_MAX] overflows, which is undefined. *)
Fixpoint iota_loop (n first : nat) (value : Z) (v : list Z)
    : option (list Z) :=
  match n with
  | 0 => Some v
  | S n' =>
      if (value <? INT_MAX)%Z
      then iota_loop n' (S first) (value + 1)%Z (<[first:=value]> v)
      else None
  end.

Definition iota (first last : nat) (value : Z) (v : list Z)
    : option (list Z) :=
  iota_loop (last - first) first value v.
End std.

(** ** The three sorts of the repository *)

Section Sorts.
Context {T : Type} `{Less T}.

(** [selection_sort(begin, end)]:
<<
    for (ForwardIt i = begin; i != end; ++i)
      std::iter_swap(i, std::min_element(i, end));
>>
    [i] is the loop cursor; one unit of fuel per iteration. *)
Fixpoint selection_sort (fuel i last : nat) (s : list T) : option (list T) :=
  if i =? last then Some s
  else
    match fuel with
    | 0 => None
    | S fuel' =>
        selection_sort fuel' (S i) last
          (std.iter_swap i (std.min_element i last s) s)
    end.

(** [std::next(first, std::distance(first, last) / 2)] *)
Definition middle_cursor (first last : nat) : nat :=
  first + (last - first) / 2.

(** The two partition steps of [quicksort] around [pivot]: the sequence
    after them, [middle1] and [middle2]. *)
Definition quicksort_partition (pivot : T) (first last : nat) (s : list T)
  : list T * nat * nat :=
  let '(s1, middle1) :=
    std.partition first last (λ em, less em pivot) s in
  let '(s2, middle2) :=
    std.partition middle1 last (λ em, negb (less pivot em)) s1 in
  (s2, middle1, middle2).

(** [quicksort(first, last)]; one unit of fuel per level of recursion. *)
Fixpoint quicksort (fuel first last : nat) (s : list T) : option (list T) :=
  if first =? last then Some s
  else
    match fuel with
    | 0 => None
    | S fuel' =>
        pivot ← s !! middle_cursor first last;
        let '(s2, middle1, middle2) :=
          quicksort_partition pivot first last s in
        s3 ← quicksort fuel' first middle1 s2;
        quicksort fuel' middle2 last s3
    end.

(** [merge_sort(first, last)]; one unit of fuel per level of recursion.
    [last - first] is the iterator difference: it is not greater than 1
    when [last] is not after [first]. *)
Fixpoint merge_sort (fuel first last : nat) (s : list T) : option (list T) :=
  if 1 <? last - first then
    match fuel with
    | 0 => None
    | S fuel' =>
        let middle := first + (last - first) / 2 in
        s1 ← merge_sort fuel' first middle s;
        s2 ← merge_sort fuel' middle last s1;
        Some (std.inplace_merge first middle last s2)
    end
  else Some s.
End Sorts.

(** ** The helper functions of the repository *)

Section Helpers.
Context {T : Type} `{EqDecision T}.

(** [in_quote(cont, s)]:
<<
    return std::search(cont.begin(), cont.end(), s.begin(), s.end())
           != cont.end();
>> *)
Definition in_quote (cont s : list T) : bool :=
  negb (std.search cont s =? length cont).

(** [consecutive_values(c, count, v)]:
<<
    return std::search_n(std::begin(c), std::end(c), count, v)
           != std::end(c);
>> *)
Definition consecutive_values (c : list T) (count : Z) (v : T) : bool :=
  negb (std.search_n c count v =? length c).
End Helpers.

(** A [std::string] is the list of its [char]s; [in.rbegin()] walks the
    reversed list. *)
Abbreviation char := Stdlib.Strings.Ascii.ascii.

(** [mirror_ends(in)]:
<<
    return std::string(in.begin(),
             std::mismatch(in.begin(), in.end(), in.rbegin()).first);
>> *)
Definition mirror_ends (input : list char) : list char :=
  take (std.mismatch input (reverse input)) input.

(** [is_palindrome(s_)]:
<<
    return std::equal(s_.begin(), s_.begin() + s_.size() / 2, s_.rbegin());
>> *)
Definition is_palindrome (s_ : list char) : bool :=
  std.equal (take (length s_ / 2) s_) (reverse s_).


(** [f_gen()]:
<<
    static int i = 1;
    return i++;
>>
    The static [i] is the state; a call gives the value returned and the
    new [i].  Incrementing [INT_MAX] is undefined. *)
Definition f_gen_initial : Z := 1.

Definition f_gen (i : Z) : option (Z * Z) :=
  if (i <? INT_MAX)%Z then Some (i, (i + 1)%Z) else None.

(** The generator [[n = 0] () mutable { return n++; }] of
    [fn_mod_sequences]: the captured [n] is its state. *)
Definition counter_initial : Z := 0.

Definition counter (n : Z) : option (Z * Z) :=
  if (n <? INT_MAX)%Z then Some (n, (n + 1)%Z) else None.

(** A [std::string] literal. *)
Definition chars (s : string) : list char :=
  Stdlib.Strings.String.list_ascii_of_string s.

(** ** Element types *)

(** [int] with its built-in [<]. *)
#[export] Instance int_less : Less Z := Z.ltb.

(** An [int] wrapped in a type whose [operator<] is the descending order. *)
Record Desc := mkDesc { desc_value : Z }.
#[export] Instance Desc_less : Less Desc :=
  λ a b, Z.ltb (desc_value b) (desc_value a).

(** An [int] wrapped in a type whose [operator<] is [<=], which is not a
    strict ordering. *)
Record Loose := mkLoose { loose_value : Z }.
#[export] Instance Loose_less : Less Loose :=
  λ a b, Z.leb (loose_value a) (loose_value b).

(** A record ordered by [key] alone; [tag] is not seen by [operator<]. *)
Record Tagged := mkTagged { key : Z; tag : nat }.
#[export] Instance Tagged_less : Less Tagged :=
  λ a b, Z.ltb (key a) (key b).

(** Four records with two keys; the tags number them in input order. *)
Definition tagged_input : list Tagged :=
  [mkTagged 2 0; mkTagged 1 1; mkTagged 2 2; mkTagged 1 3].

(** ** What the sorts are expected to establish *)

Section Specification.
Context {T : Type} `{Less T}.

(** The range is non-descending: no element is less than an earlier one. *)
Definition sorted_range (first last : nat) (s : list T) : Prop :=
  ∀ i j x y, first ≤ i → i < j → j < last →
    s !! i = Some x → s !! j = Some y → less y x = false.

(** [ordered x y]: [y] may follow [x] in a non-descending sequence. *)
Definition ordered (x y : T) : Prop := less y x = false.

(** The relative order of equivalent elements of the range is the same in
    [s'] as in [s]. *)
Definition stable_on (first last : nat) (s s' : list T) : Prop :=
  ∀ x, List.filter (equiv x) (slice first last s') =
       List.filter (equiv x) (slice first last s).

(** No two elements of the range are equivalent under the ordering. *)
Definition distinct_range (first last : nat) (s : list T) : Prop :=
  ∀ i j x y, first ≤ i → i < j → j < last →
    s !! i = Some x → s !! j = Some y → equiv x y = false.
End Specification.

(** ** Facts about ranges *)

Lemma halving_cursor first last :
  1 < last - first → first < first + (last - first) / 2 < last.
Proof.
  intros ?.
  assert ((last - first) / 2 < last - first)
    by (apply Nat.Div0.div_lt_upper_bound; lia).
  assert (1 ≤ (last - first) / 2)
    by (apply Nat.div_le_lower_bound; lia).
  lia.
Qed.


Section RangeFacts.
Context {T : Type}.
Implicit Types s : list T.

Lemma slice_lookup first last s i :
  slice first last s !! i =
    if decide (i < last - first) then s !! (first + i) else None.
Proof. unfold slice. rewrite lookup_take. by rewrite lookup_drop. Qed.

Lemma slice_length first last s :
  valid_range first last s → length (slice first last s) = last - first.
Proof.
  intros [??]. unfold slice. rewrite length_take, length_drop. lia.
Qed.

Lemma slice_split first last s :
  valid_range first last s →
  s = take first s ++ slice first last s ++ drop last s.
Proof.
  intros [??]. unfold slice.
  rewrite <-(take_drop first s) at 1. f_equal.
  rewrite <-(take_drop (last - first) (drop first s)) at 1. f_equal.
  rewrite drop_drop. f_equal. lia.
Qed.

Lemma slice_app first middle last s :
  first ≤ middle → middle ≤ last →
  slice first last s = slice first middle s ++ slice middle last s.
Proof.
  intros ??. unfold slice.
  replace (last - first) with ((middle - first) + (last - middle)) by lia.
  rewrite <-take_take_drop, drop_drop.
  by replace (first + (middle - first)) with middle by lia.
Qed.

Lemma slice_singleton k s x : s !! k = Some x → slice k (S k) s = [x].
Proof.
  intros Hx. unfold slice. rewrite (drop_S s x k Hx).
  by replace (S k - k) with 1 by lia.
Qed.

Lemma slice_ext first last s s' :
  (∀ k, first ≤ k < last → s' !! k = s !! k) →
  slice first last s' = slice first last s.
Proof.
  intros Hk. apply list_eq. intros i. rewrite !slice_lookup.
  case_decide; [|done]. apply Hk. lia.
Qed.

Lemma elem_of_slice first last s x :
  x ∈ slice first last s ↔ ∃ k, first ≤ k < last ∧ s !! k = Some x.
Proof.
  rewrite list_elem_of_lookup. split.
  - intros [i Hi]. rewrite slice_lookup in Hi. case_decide; [|done].
    exists (first + i). split; [lia|done].
  - intros (k & Hk & Hx). exists (k - first). rewrite slice_lookup.
    rewrite decide_True by lia. by replace (first + (k - first)) with k by lia.
Qed.

Lemma frame_refl first last s : frame first last s s.
Proof. by split. Qed.

Lemma frame_sym first last s s' : frame first last s s' → frame first last s' s.
Proof. intros [Hl Hk]. split; [done|]. intros k ?. by rewrite Hk. Qed.

Lemma frame_trans first last s1 s2 s3 :
  frame first last s1 s2 → frame first last s2 s3 → frame first last s1 s3.
Proof.
  intros [Hl1 Hk1] [Hl2 Hk2]. split; [congruence|].
  intros k Hk. by rewrite Hk2, Hk1.
Qed.

Lemma frame_weaken first last first' last' s s' :
  first' ≤ first → last ≤ last' →
  frame first last s s' → frame first' last' s s'.
Proof.
  intros ?? [Hl Hk]. split; [done|]. intros k ?. apply Hk. lia.
Qed.

Lemma frame_valid_range first last a b s s' :
  frame first last s s' → valid_range a b s → valid_range a b s'.
Proof. intros [Hl _] [??]. split; [done|]. by rewrite Hl. Qed.

(** A reordering inside the range is the old prefix, the new contents of
    the range and the old suffix. *)
Lemma frame_split first last s s' :
  valid_range first last s → frame first last s s' →
  s' = take first s ++ slice first last s' ++ drop last s.
Proof.
  intros Hv [Hl Hk].
  rewrite (slice_split first last s') at 1
    by (destruct Hv; split; [done|by rewrite Hl]).
  f_equal; [|f_equal].
  - apply list_eq. intros i. rewrite !lookup_take.
    case_decide; [|done]. apply Hk. lia.
  - apply list_eq. intros i. rewrite !lookup_drop. apply Hk. lia.
Qed.

(** A permutation of the sequence that leaves the outside of the range
    alone permutes the range. *)
Lemma frame_slice_perm first last s s' :
  valid_range first last s → frame first last s s' → s ≡ₚ s' →
  slice first last s ≡ₚ slice first last s'.
Proof.
  intros Hv Hf Hp.
  rewrite (frame_split first last s s' Hv Hf) in Hp.
  rewrite (slice_split first last s Hv) in Hp at 1.
  apply (inj (app (take first s))) in Hp.
  by apply (inj (λ l, l ++ drop last s)) in Hp.
Qed.

(** Writing [l] over the range. *)
Lemma splice_frame first last s l :
  valid_range first last s → length l = last - first →
  frame first last s (take first s ++ l ++ drop last s) ∧
  slice first last (take first s ++ l ++ drop last s) = l.
Proof.
  intros [Hfl Hlen] Hl.
  assert (length (take first s) = first) as Htake
    by (rewrite length_take; lia).
  split; [split|].
  - rewrite !length_app, Htake, Hl, length_drop. lia.
  - intros k [Hk|Hk].
    + rewrite lookup_app_l by lia. by apply lookup_take_lt.
    + rewrite app_assoc, lookup_app_r by (rewrite length_app; lia).
      rewrite lookup_drop, length_app, Htake, Hl. f_equal. lia.
  - unfold slice. rewrite drop_app_length' by done.
    by rewrite take_app_length'.
Qed.

Lemma write_back_splice l : ∀ out s,
  out + length l ≤ length s →
  std.write_back out l s = take out s ++ l ++ drop (out + length l) s.
Proof.
  induction l as [|x l IH]; intros out s Hlen; simpl.
  { by rewrite Nat.add_0_r, take_drop. }
  simpl in Hlen. rewrite IH by (rewrite length_insert; lia).
  replace (out + S (length l)) with (S out + length l) by lia.
  rewrite (take_S_r _ out x) by (apply list_lookup_insert_eq; lia).
  rewrite take_insert_ge by lia. rewrite drop_insert_lt by lia.
  by rewrite <-app_assoc.
Qed.

Lemma slice_frame_outside first last a b s s' :
  frame first last s s' → b ≤ first ∨ last ≤ a →
  slice a b s' = slice a b s.
Proof.
  intros [_ Hk] ?. apply slice_ext. intros k ?. apply Hk. lia.
Qed.
End RangeFacts.

(** ** [std::iter_swap] *)

Section SwapFacts.
Context {T : Type}.
Implicit Types s : list T.

Lemma iter_swap_length a b s : length (std.iter_swap a b s) = length s.
Proof.
  unfold std.iter_swap. destruct (s !! a), (s !! b); try done.
  by rewrite !length_insert.
Qed.

Lemma iter_swap_lookup a b s x y k :
  s !! a = Some x → s !! b = Some y →
  std.iter_swap a b s !! k =
    if decide (k = b) then Some x
    else if decide (k = a) then Some y else s !! k.
Proof.
  intros Ha Hb. unfold std.iter_swap. rewrite Ha, Hb.
  pose proof (lookup_lt_Some _ _ _ Ha). pose proof (lookup_lt_Some _ _ _ Hb).
  destruct (decide (k = b)) as [->|].
  { by rewrite list_lookup_insert_eq by (by rewrite length_insert). }
  rewrite list_lookup_insert_ne by done.
  destruct (decide (k = a)) as [->|].
  - by rewrite list_lookup_insert_eq.
  - by rewrite list_lookup_insert_ne.
Qed.


Lemma iter_swap_same a s : std.iter_swap a a s = s.
Proof.
  unfold std.iter_swap. destruct (s !! a) eqn:Ha; [|done].
  rewrite (list_insert_id s a t) by done. by apply list_insert_id.
Qed.

Lemma iter_swap_frame first last a b s :
  first ≤ a < last → first ≤ b < last →
  frame first last s (std.iter_swap a b s).
Proof.
  intros ??. split; [apply iter_swap_length|]. intros k ?.
  destruct (s !! a) as [x|] eqn:Ha;
    [|by unfold std.iter_swap; rewrite Ha].
  destruct (s !! b) as [y|] eqn:Hb;
    [|by unfold std.iter_swap; rewrite Ha, Hb].
  rewrite (iter_swap_lookup a b s x y) by done.
  rewrite !decide_False by lia. done.
Qed.

Lemma iter_swap_perm a b s : s ≡ₚ std.iter_swap a b s.
Proof.
  destruct (s !! a) as [x|] eqn:Ha;
    [|by unfold std.iter_swap; rewrite Ha].
  destruct (s !! b) as [y|] eqn:Hb;
    [|by unfold std.iter_swap; rewrite Ha, Hb].
  apply Permutation_inj. split; [by rewrite iter_swap_length|].
  exists (λ i, if decide (i = a) then b else if decide (i = b) then a else i).
  split.
  - intros i j. repeat case_decide; intros; subst; congruence.
  - intros i. rewrite (iter_swap_lookup a b s x y) by done.
    repeat case_decide; subst; congruence.
Qed.
End SwapFacts.

(** ** Facts about a strict weak ordering *)

Section OrderFacts.
Context {T : Type} `{StrictWeakOrder T}.
Implicit Types x y z : T.

Lemma less_asym x y : less x y = true → less y x = false.
Proof.
  intros Hxy. destruct (less y x) eqn:Hyx; [|done].
  pose proof (less_trans _ _ _ Hxy Hyx) as Hxx.
  by rewrite less_irrefl in Hxx.
Qed.

(** "Not less than" is transitive: from [x ≤ y] and [y ≤ z], [x ≤ z]. *)
Lemma not_less_trans x y z :
  less y x = false → less z y = false → less z x = false.
Proof.
  intros Hyx Hzy. destruct (less z x) eqn:Hzx; [|done].
  destruct (less x y) eqn:Hxy.
  { pose proof (less_trans _ _ _ Hzx Hxy). congruence. }
  destruct (less y z) eqn:Hyz.
  { pose proof (less_trans _ _ _ Hyz Hzx). congruence. }
  destruct (incomp_trans x y z Hxy Hyx Hyz Hzy). congruence.
Qed.

Lemma less_not_less_trans x y z :
  less x y = true → less z y = false → less x z = true.
Proof.
  intros Hxy Hzy. destruct (less x z) eqn:Hxz; [done|].
  pose proof (not_less_trans _ _ _ Hzy Hxz). congruence.
Qed.

Lemma not_less_less_trans x y z :
  less y x = false → less y z = true → less x z = true.
Proof.
  intros Hyx Hyz. destruct (less x z) eqn:Hxz; [done|].
  pose proof (not_less_trans _ _ _ Hxz Hyx). congruence.
Qed.

Lemma equiv_refl x : equiv x x = true.
Proof. unfold equiv. by rewrite less_irrefl. Qed.

Lemma equiv_true x y :
  equiv x y = true ↔ less x y = false ∧ less y x = false.
Proof.
  unfold equiv. destruct (less x y), (less y x); simpl; intuition congruence.
Qed.

Lemma equiv_less_l x y z : equiv x y = true → less x z = less y z.
Proof.
  rewrite equiv_true. intros [Hxy Hyx].
  destruct (less y z) eqn:Hyz.
  - by apply (not_less_less_trans _ y).
  - by apply (not_less_trans _ y).
Qed.

Lemma equiv_less_r x y z : equiv x y = true → less z x = less z y.
Proof.
  rewrite equiv_true. intros [Hxy Hyx].
  destruct (less z y) eqn:Hzy.
  - by apply (less_not_less_trans _ y).
  - by apply (not_less_trans _ y).
Qed.
End OrderFacts.

(** ** Sorted ranges *)

Section SortedRange.
Context {T : Type} `{Less T}.
Implicit Types s : list T.

(** Every element of the range is an element of the range before a
    reordering inside it. *)
Lemma frame_perm_lookup first last s s' k y :
  valid_range first last s → frame first last s s' → s ≡ₚ s' →
  first ≤ k < last → s' !! k = Some y →
  ∃ k', first ≤ k' < last ∧ s !! k' = Some y.
Proof.
  intros Hv Hf Hp Hk Hy. apply elem_of_slice.
  rewrite (frame_slice_perm first last s s' Hv Hf Hp).
  apply elem_of_slice. eauto.
Qed.

Lemma sorted_range_ext first last s s' :
  (∀ k, first ≤ k < last → s' !! k = s !! k) →
  sorted_range first last s → sorted_range first last s'.
Proof.
  intros Hk Hs i j x y ??? Hx Hy.
  rewrite Hk in Hx by lia. rewrite Hk in Hy by lia. eauto.
Qed.

Lemma sorted_range_weaken first last first' last' s :
  first ≤ first' → last' ≤ last →
  sorted_range first last s → sorted_range first' last' s.
Proof. intros ?? Hs i j x y ???. apply Hs; lia. Qed.
End SortedRange.

(** ** [std::min_element] and [selection_sort] *)

Section MinElement.
Context {T : Type} `{StrictWeakOrder T}.
Implicit Types s : list T.

Lemma less_at_irrefl s i : std.less_at s i i = false.
Proof.
  unfold std.less_at. destruct (s !! i); [apply less_irrefl|done].
Qed.

Lemma less_at_false s i j x y :
  s !! i = Some x → s !! j = Some y →
  std.less_at s i j = false → less x y = false.
Proof. intros Hi Hj. unfold std.less_at. by rewrite Hi, Hj. Qed.

(** Loop invariant of [min_element]: [smallest] is in [lo, it) and no
    element of [lo, it) is less than the one it points to. *)
Lemma min_element_loop_spec lo s n : ∀ it smallest,
  lo ≤ smallest < it → it + n ≤ length s →
  (∀ k, lo ≤ k < it → std.less_at s k smallest = false) →
  lo ≤ std.min_element_loop n it smallest s < it + n ∧
  ∀ k, lo ≤ k < it + n →
    std.less_at s k (std.min_element_loop n it smallest s) = false.
Proof.
  induction n as [|n IH]; intros it smallest Hsm Hlen Hmin; simpl.
  { replace (it + 0) with it by lia. done. }
  replace (it + S n) with (S it + n) by lia.
  apply IH; [case_match; lia|lia|].
  intros k Hk. destruct (std.less_at s it smallest) eqn:Hlt.
  - destruct (decide (k = it)) as [->|]; [apply less_at_irrefl|].
    assert (std.less_at s k smallest = false) as Hks by (apply Hmin; lia).
    revert Hlt Hks. unfold std.less_at.
    destruct (s !! k) as [x|], (s !! it) as [y|], (s !! smallest) as [z|];
      try done.
    intros Hyz Hxz. destruct (less x y) eqn:Hxy; [|done].
    pose proof (less_trans _ _ _ Hxy Hyz). congruence.
  - destruct (decide (k = it)) as [->|]; [done|]. apply Hmin. lia.
Qed.

Lemma min_element_spec first last s :
  first < last → last ≤ length s →
  first ≤ std.min_element first last s < last ∧
  ∀ k, first ≤ k < last →
    std.less_at s k (std.min_element first last s) = false.
Proof.
  intros ??. unfold std.min_element.
  rewrite (proj2 (Nat.eqb_neq first last)) by lia.
  pose proof (min_element_loop_spec first s (last - S first) (S first) first)
    as Hloop.
  replace (S first + (last - S first)) with last in Hloop by lia.
  apply Hloop; [lia|lia|].
  intros k ?. replace k with first by lia. apply less_at_irrefl.
Qed.

(** [min_element] returns the first of the smallest elements. *)
Lemma min_element_loop_first s n : ∀ it smallest,
  (∀ k, it ≤ k < it + n → std.less_at s k smallest = false) →
  std.min_element_loop n it smallest s = smallest.
Proof.
  induction n as [|n IH]; intros it smallest Hk; simpl; [done|].
  rewrite Hk by lia. apply IH. intros k ?. apply Hk. lia.
Qed.

Lemma min_element_sorted first last s :
  first < last → sorted_range first last s →
  std.min_element first last s = first.
Proof.
  intros ? Hs. unfold std.min_element.
  rewrite (proj2 (Nat.eqb_neq first last)) by lia.
  apply min_element_loop_first. intros k ?. unfold std.less_at.
  destruct (s !! k) as [y|] eqn:Hy, (s !! first) as [x|] eqn:Hx; try done.
  apply (Hs first k x y); (lia || done).
Qed.
End MinElement.

Section SelectionSort.
Context {T : Type} `{StrictWeakOrder T}.
Implicit Types s : list T.

(** [selection_sort] returns within [last - i] iterations; the result is
    a reordering inside the range, and the range is sorted. *)
Lemma selection_sort_spec last fuel : ∀ i s,
  valid_range i last s → last - i ≤ fuel →
  ∃ s', selection_sort fuel i last s = Some s' ∧
        frame i last s s' ∧ s ≡ₚ s' ∧ sorted_range i last s'.
Proof.
  induction fuel as [|fuel IH]; intros i s [Hil Hlen] Hfuel; simpl.
  { rewrite (proj2 (Nat.eqb_eq i last)) by lia.
    exists s. split_and!; [done|apply frame_refl|done|].
    intros a b ?????. lia. }
  destruct (Nat.eqb_spec i last) as [->|Hne].
  { exists s. split_and!; [done|apply frame_refl|done|].
    intros a b ?????. lia. }
  destruct (min_element_spec i last s) as [Hm Hmin]; [lia|done|].
  set (m := std.min_element i last s) in *.
  set (s1 := std.iter_swap i m s).
  assert (frame i last s s1) as Hf1 by (apply iter_swap_frame; lia).
  assert (s ≡ₚ s1) as Hp1 by apply iter_swap_perm.
  assert (valid_range i last s) as Hv by done.
  destruct (IH (S i) s1) as (s' & Hs' & Hf' & Hp' & Hsorted).
  { split; [lia|]. unfold s1. by rewrite iter_swap_length. }
  { lia. }
  exists s'. split_and!; [done| | |].
  - eapply frame_trans; [done|]. eapply frame_weaken; [| |done]; lia.
  - by etrans.
  - intros a b x y Ha Hab Hb Hx Hy.
    destruct (decide (a = i)) as [->|]; [|apply (Hsorted a b); (lia || done)].
    (* the element at [i] is the minimum of the range of [s] *)
    destruct (lookup_lt_is_Some_2 s i) as [xi Hxi]; [lia|].
    destruct (lookup_lt_is_Some_2 s m) as [xm Hxm]; [lia|].
    assert (x = xm) as ->.
    { destruct Hf' as [_ Hk']. rewrite Hk' in Hx by lia.
      unfold s1 in Hx. rewrite (iter_swap_lookup i m s xi xm) in Hx by done.
      destruct (decide (i = m)) as [<-|]; [congruence|].
      rewrite decide_True in Hx by done. congruence. }
    destruct (frame_perm_lookup (S i) last s1 s' b y) as (k1 & Hk1 & Hy1);
      [split; [lia|]; unfold s1; by rewrite iter_swap_length
      |done|done|lia|done|].
    destruct (frame_perm_lookup i last s s1 k1 y) as (k & Hk & Hy0);
      [done|done|done|lia|done|].
    apply (less_at_false s k m); [done|done|]. apply Hmin. lia.
Qed.

(** On a sorted range [selection_sort] changes nothing. *)
Lemma selection_sort_sorted last fuel : ∀ i s,
  i ≤ last → last - i ≤ fuel → sorted_range i last s →
  selection_sort fuel i last s = Some s.
Proof.
  induction fuel as [|fuel IH]; intros i s Hil Hfuel Hs; simpl.
  { by rewrite (proj2 (Nat.eqb_eq i last)) by lia. }
  destruct (Nat.eqb_spec i last) as [->|Hne]; [done|].
  rewrite min_element_sorted by (lia || done).
  rewrite iter_swap_same. apply IH; [lia|lia|].
  eapply sorted_range_weaken; [| |done]; lia.
Qed.
End SelectionSort.

(** ** [std::partition] *)

Section Partition.
Context {T : Type} (p : T → bool).
Implicit Types s : list T.

Lemma holds_at_lookup s k x :
  s !! k = Some x → std.holds_at p s k = p x.
Proof. intros Hx. unfold std.holds_at. by rewrite Hx. Qed.

(** [iter_swap] as a transposition of positions. *)
Lemma iter_swap_lookup_transp a b s k :
  a < length s → b < length s →
  std.iter_swap a b s !! k =
    s !! (if decide (k = b) then a else if decide (k = a) then b else k).
Proof.
  intros Ha Hb.
  destruct (lookup_lt_is_Some_2 s a Ha) as [x Hx].
  destruct (lookup_lt_is_Some_2 s b Hb) as [y Hy].
  rewrite (iter_swap_lookup a b s x y) by done.
  repeat case_decide; congruence.
Qed.

Lemma find_if_not_loop_spec s n : ∀ it,
  it ≤ std.find_if_not_loop n it p s ≤ it + n ∧
  (∀ k, it ≤ k < std.find_if_not_loop n it p s →
        std.holds_at p s k = true) ∧
  (std.find_if_not_loop n it p s < it + n →
   std.holds_at p s (std.find_if_not_loop n it p s) = false).
Proof.
  induction n as [|n IH]; intros it; simpl.
  { split_and!; intros; lia. }
  destruct (std.holds_at p s it) eqn:Hit.
  - destruct (IH (S it)) as (Hr & Ht & Hf). split_and!; [lia|lia| |].
    + intros k ?. destruct (decide (k = it)) as [->|]; [done|].
      apply Ht. lia.
    + intros ?. apply Hf. lia.
  - split_and!; [lia|lia|intros; lia|done].
Qed.

(** Loop invariant of [partition]: the elements of [lo, first) satisfy
    [p], those of [first, i) do not. *)
Lemma partition_loop_spec lo n : ∀ i first s s' m,
  lo ≤ first < i → i + n ≤ length s →
  (∀ k, lo ≤ k < first → std.holds_at p s k = true) →
  (∀ k, first ≤ k < i → std.holds_at p s k = false) →
  std.partition_loop n i first p s = (s', m) →
  frame lo (i + n) s s' ∧ s ≡ₚ s' ∧ first ≤ m < i + n ∧
  (∀ k, lo ≤ k < m → std.holds_at p s' k = true) ∧
  (∀ k, m ≤ k < i + n → std.holds_at p s' k = false).
Proof.
  induction n as [|n IH]; intros i first s s' m Hfi Hlen Ht Hf; simpl.
  { intros [= <- <-]. replace (i + 0) with i by lia.
    split_and!; [apply frame_refl|done|lia|lia|done|done]. }
  replace (i + S n) with (S i + n) by lia.
  intros Hloop.
  destruct (std.holds_at p s i) eqn:Hi;
    [|apply IH in Hloop; [done|lia|lia|done|]].
  - 
    assert (∀ k, std.holds_at p (std.iter_swap i first s) k =
                 std.holds_at p s
                   (if decide (k = first) then i
                    else if decide (k = i) then first else k)) as Hsw.
    { intros k. unfold std.holds_at.
      by rewrite iter_swap_lookup_transp by lia. }
    apply IH in Hloop as (Hfr & Hp & Hm & Ht' & Hf').
    + split_and!; [|by etrans; [apply iter_swap_perm|]|lia|lia|done|done].
      apply (frame_trans _ _ _ (std.iter_swap i first s));
        [apply iter_swap_frame; lia|done].
    + lia.
    + rewrite iter_swap_length. lia.
    + intros k ?. rewrite Hsw. repeat case_decide; try lia; [done|].
      apply Ht. lia.
    + intros k ?. rewrite Hsw. repeat case_decide; try lia.
      * apply Hf. lia.
      * apply Hf. lia.
  - intros k ?. destruct (decide (k = i)) as [->|]; [done|]. apply Hf. lia.
Qed.

Lemma partition_holds first last s s' m :
  valid_range first last s →
  std.partition first last p s = (s', m) →
  frame first last s s' ∧ s ≡ₚ s' ∧ first ≤ m ≤ last ∧
  (∀ k, first ≤ k < m → std.holds_at p s' k = true) ∧
  (∀ k, m ≤ k < last → std.holds_at p s' k = false).
Proof.
  intros [Hfl Hlen]. unfold std.partition, std.find_if_not.
  destruct (find_if_not_loop_spec s (last - first) first) as (Hr & Ht & Hf).
  set (f := std.find_if_not_loop (last - first) first p s) in *.
  replace (first + (last - first)) with last in * by lia.
  destruct (Nat.eqb_spec f last) as [Heq|Hne].
  { intros [= <- <-]. split_and!; [apply frame_refl|done|lia|lia|done|].
    intros k ?. lia. }
  intros Hloop.
  apply (partition_loop_spec first) in Hloop; [|lia|lia|done|].
  - replace (S f + (last - S f)) with last in Hloop by lia.
    destruct Hloop as (? & ? & ? & ? & Hf'). split_and!; [done|done|lia|lia|done|done].
  - intros k ?. replace k with f by lia. apply Hf. lia.
Qed.

Lemma partition_spec first last s s' m :
  valid_range first last s →
  std.partition first last p s = (s', m) →
  frame first last s s' ∧ s ≡ₚ s' ∧ first ≤ m ≤ last ∧
  (∀ k x, first ≤ k < m → s' !! k = Some x → p x = true) ∧
  (∀ k x, m ≤ k < last → s' !! k = Some x → p x = false).
Proof.
  intros Hv Hpart.
  destruct (partition_holds first last s s' m Hv Hpart)
    as (? & ? & ? & Ht & Hf).
  split_and!; [done|done|lia|lia| |].
  - intros k x Hk Hx. by rewrite <-(holds_at_lookup s' k x Hx), Ht.
  - intros k x Hk Hx. by rewrite <-(holds_at_lookup s' k x Hx), Hf.
Qed.

(** A range that is partitioned already is left as it is. *)
Lemma partition_loop_id s n : ∀ i first,
  (∀ k, i ≤ k < i + n → std.holds_at p s k = false) →
  std.partition_loop n i first p s = (s, first).
Proof.
  induction n as [|n IH]; intros i first Hk; simpl; [done|].
  rewrite Hk by lia. apply IH. intros k ?. apply Hk. lia.
Qed.

Lemma partition_id first last s :
  first ≤ last →
  (∀ j k, first ≤ j → j < k → k < last →
          std.holds_at p s k = true → std.holds_at p s j = true) →
  std.partition first last p s = (s, std.find_if_not first last p s).
Proof.
  intros Hfl Hdown. unfold std.partition, std.find_if_not.
  destruct (find_if_not_loop_spec s (last - first) first) as (Hr & Ht & Hf).
  set (f := std.find_if_not_loop (last - first) first p s) in *.
  replace (first + (last - first)) with last in * by lia.
  destruct (Nat.eqb_spec f last) as [Heq|Hne]; [done|].
  apply partition_loop_id. intros k ?.
  destruct (std.holds_at p s k) eqn:Hk; [|done].
  rewrite (Hdown f k) in Hf; [|lia|lia|lia|done].
  apply Hf. lia.
Qed.
End Partition.

(** ** [quicksort] *)

Section QuicksortStep.
Context {T : Type} `{Less T}.
Implicit Types s : list T.

Lemma middle_cursor_range first last :
  first < last → first ≤ middle_cursor first last < last.
Proof.
  intros ?. unfold middle_cursor.
  assert ((last - first) / 2 < last - first)
    by (apply Nat.Div0.div_lt_upper_bound; lia).
  lia.
Qed.

(** The three blocks that the two partition steps produce. *)
Lemma quicksort_partition_spec pivot first last s s2 m1 m2 :
  valid_range first last s →
  quicksort_partition pivot first last s = (s2, m1, m2) →
  frame first last s s2 ∧ s ≡ₚ s2 ∧
  first ≤ m1 ∧ m1 ≤ m2 ∧ m2 ≤ last ∧
  (∀ k x, first ≤ k < m1 → s2 !! k = Some x → less x pivot = true) ∧
  (∀ k x, m1 ≤ k < m2 → s2 !! k = Some x →
          less x pivot = false ∧ less pivot x = false) ∧
  (∀ k x, m2 ≤ k < last → s2 !! k = Some x →
          less x pivot = false ∧ less pivot x = true).
Proof.
  intros Hv. unfold quicksort_partition.
  destruct (std.partition first last _ s) as [s1 m1'] eqn:Hp1.
  destruct (std.partition m1' last _ s1) as [s2' m2'] eqn:Hp2.
  intros [= <- <- <-].
  apply partition_spec in Hp1 as (Hf1 & Hperm1 & Hm1 & Ht1 & Hn1); [|done].
  assert (valid_range m1' last s1) as Hv1.
  { destruct Hv, Hf1 as [Hl _]. split; [lia|by rewrite Hl]. }
  apply partition_spec in Hp2 as (Hf2 & Hperm2 & Hm2 & Ht2 & Hn2); [|done].
  assert (∀ k x, m1' ≤ k < last → s2' !! k = Some x → less x pivot = false)
    as Hge.
  { intros k x Hk Hx.
    destruct (frame_perm_lookup m1' last s1 s2' k x) as (k' & ? & ?);
      [done..|]. apply (Hn1 k'); [lia|done]. }
  split_and!; [|by etrans|lia|lia|lia| | |].
  - eapply frame_trans; [done|]. eapply frame_weaken; [| |done]; lia.
  - intros k x Hk Hx. destruct Hf2 as [_ Hk2]. rewrite Hk2 in Hx by lia.
    by apply (Ht1 k).
  - intros k x Hk Hx. split; [apply (Hge k); [lia|done]|].
    apply negb_true_iff. by apply (Ht2 k).
  - intros k x Hk Hx. split; [apply (Hge k); [lia|done]|].
    apply negb_false_iff. by apply (Hn2 k).
Qed.

(** The pivot is an element of the range, and is not less than itself:
    it lands in the middle block. *)
Lemma quicksort_partition_pivot pivot first last s s2 m1 m2 :
  less pivot pivot = false →
  valid_range first last s →
  (∃ k, first ≤ k < last ∧ s !! k = Some pivot) →
  quicksort_partition pivot first last s = (s2, m1, m2) →
  ∃ k, m1 ≤ k < m2 ∧ s2 !! k = Some pivot.
Proof.
  intros Hirr Hv (k0 & Hk0 & Hpiv) Hqp.
  destruct (quicksort_partition_spec _ _ _ _ _ _ _ Hv Hqp)
    as (Hf & Hp & ? & ? & ? & HL & HE & HG).
  destruct (frame_perm_lookup first last s2 s k0 pivot) as (k & Hk & Hx);
    [by eapply frame_valid_range|by apply frame_sym|done|done|done|].
  exists k. split; [|done].
  destruct (decide (k < m1)) as [?|?].
  { rewrite (HL k pivot) in Hirr by (lia || done). done. }
  destruct (decide (m2 ≤ k)) as [?|?]; [|lia].
  destruct (HG k pivot) as [_ Hlt]; [lia|done|]. congruence.
Qed.

(** Whatever the ordering, a result of [quicksort] is a reordering inside
    the range. *)
Lemma quicksort_frame fuel : ∀ first last s s',
  valid_range first last s →
  quicksort fuel first last s = Some s' →
  frame first last s s' ∧ s ≡ₚ s'.
Proof.
  induction fuel as [|fuel IH]; intros first last s s' Hv; simpl.
  { case_match; [|done]. intros [= <-]. split; [apply frame_refl|done]. }
  destruct (first =? last); [intros [= <-]; split; [apply frame_refl|done]|].
  destruct (s !! middle_cursor first last) as [pivot|]; simpl; [|done].
  destruct (quicksort_partition pivot first last s) as [[s2 m1] m2] eqn:Hqp.
  destruct (quicksort fuel first m1 s2) as [s3|] eqn:Hq1; simpl; [|done].
  intros Hq2.
  destruct (quicksort_partition_spec _ _ _ _ _ _ _ Hv Hqp)
    as (Hf & Hp & ? & ? & ? & _).
  assert (length s2 = length s) as Hl2 by apply Hf.
  apply IH in Hq1 as [Hf1 Hp1];
    [|destruct Hv; split; [lia|rewrite Hl2; lia]].
  assert (length s3 = length s2) as Hl3 by apply Hf1.
  apply IH in Hq2 as [Hf2 Hp2];
    [|destruct Hv; split; [lia|rewrite Hl3, Hl2; lia]].
  split; [|by rewrite Hp, Hp1].
  eapply frame_trans; [done|].
  eapply frame_trans; (eapply frame_weaken; [| |done]; lia).
Qed.
End QuicksortStep.

Section QuicksortTermination.
Context {T : Type} `{Less T}.
Hypothesis less_irreflexive : ∀ x : T, less x x = false.
Implicit Types s : list T.

(** The middle block is not empty. *)
Lemma quicksort_middle_nonempty first last s pivot s2 m1 m2 :
  valid_range first last s → first < last →
  s !! middle_cursor first last = Some pivot →
  quicksort_partition pivot first last s = (s2, m1, m2) →
  m1 < m2.
Proof.
  intros Hv Hfl Hpiv Hqp.
  destruct (quicksort_partition_pivot pivot first last s s2 m1 m2)
    as (k & ? & _); [apply less_irreflexive|done| |done|lia].
  exists (middle_cursor first last).
  split; [by apply middle_cursor_range|done].
Qed.

(** [quicksort] returns when the budget is at least the length of the
    range. *)
Lemma quicksort_returns fuel : ∀ first last s,
  valid_range first last s → last - first ≤ fuel →
  ∃ s', quicksort fuel first last s = Some s'.
Proof.
  induction fuel as [|fuel IH]; intros first last s Hv Hfuel; simpl.
  { rewrite (proj2 (Nat.eqb_eq first last)) by (destruct Hv; lia). eauto. }
  destruct (Nat.eqb_spec first last) as [|Hne]; [eauto|].
  assert (first < last) as Hfl by (destruct Hv; lia).
  pose proof (middle_cursor_range first last Hfl) as Hmid.
  destruct (lookup_lt_is_Some_2 s (middle_cursor first last))
    as [pivot Hpiv]; [destruct Hv; lia|].
  rewrite Hpiv; simpl.
  destruct (quicksort_partition pivot first last s) as [[s2 m1] m2] eqn:Hqp.
  pose proof (quicksort_middle_nonempty _ _ _ _ _ _ _ Hv Hfl Hpiv Hqp).
  destruct (quicksort_partition_spec _ _ _ _ _ _ _ Hv Hqp)
    as (Hf & Hp & ? & ? & ? & _).
  assert (length s2 = length s) as Hl2 by apply Hf.
  assert (valid_range first m1 s2) as Hv1
    by (destruct Hv; split; [lia|rewrite Hl2; lia]).
  destruct (IH first m1 s2) as [s3 Hq1]; [done|lia|].
  rewrite Hq1; simpl.
  apply quicksort_frame in Hq1 as [[Hl3 _] _]; [|done].
  apply IH; [|lia]. destruct Hv. split; [lia|rewrite Hl3, Hl2; lia].
Qed.
End QuicksortTermination.

Section QuicksortSorted.
Context {T : Type} `{StrictWeakOrder T}.
Implicit Types s : list T.

(** A result of [quicksort] has its range sorted. *)
Lemma quicksort_sorted fuel : ∀ first last s s',
  valid_range first last s →
  quicksort fuel first last s = Some s' →
  sorted_range first last s'.
Proof.
  induction fuel as [|fuel IH]; intros first last s s' Hv; simpl.
  { destruct (Nat.eqb_spec first last) as [->|]; [|done].
    intros _ i j ?????. lia. }
  destruct (Nat.eqb_spec first last) as [->|Hne];
    [intros _ i j ?????; lia|].
  destruct (s !! middle_cursor first last) as [pivot|]; simpl; [|done].
  destruct (quicksort_partition pivot first last s) as [[s2 m1] m2] eqn:Hqp.
  destruct (quicksort fuel first m1 s2) as [s3|] eqn:Hq1; simpl; [|done].
  intros Hq2.
  destruct (quicksort_partition_spec _ _ _ _ _ _ _ Hv Hqp)
    as (Hf & Hp & ? & ? & ? & HL & HE & HG).
  assert (length s2 = length s) as Hl2 by apply Hf.
  assert (valid_range first m1 s2) as Hv1
    by (destruct Hv; split; [lia|rewrite Hl2; lia]).
  pose proof (IH _ _ _ _ Hv1 Hq1) as Hs1.
  destruct (quicksort_frame _ _ _ _ _ Hv1 Hq1) as [Hf1 Hp1].
  assert (length s3 = length s2) as Hl3 by apply Hf1.
  assert (valid_range m2 last s3) as Hv2
    by (destruct Hv; split; [lia|rewrite Hl3, Hl2; lia]).
  pose proof (IH _ _ _ _ Hv2 Hq2) as Hs2.
  destruct (quicksort_frame _ _ _ _ _ Hv2 Hq2) as [Hf2 Hp2].
  pose proof Hf1 as [_ Hk1]. pose proof Hf2 as [_ Hk2].
  (* before [middle2] nothing is greater than the pivot *)
  assert (∀ k x, first ≤ k < m2 → s' !! k = Some x → less pivot x = false)
    as Hle.
  { intros k x Hk Hx. rewrite Hk2 in Hx by lia.
    destruct (decide (k < m1)) as [?|?].
    - destruct (frame_perm_lookup first m1 s2 s3 k x) as (k' & ? & ?);
        [done|done|done|lia|done|].
      apply less_asym. by apply (HL k').
    - rewrite Hk1 in Hx by lia. apply (HE k x); [lia|done]. }
  (* from [middle1] on nothing is less than the pivot *)
  assert (∀ k x, m1 ≤ k < last → s' !! k = Some x → less x pivot = false)
    as Hge.
  { intros k x Hk Hx.
    destruct (decide (k < m2)) as [?|?].
    - rewrite Hk2, Hk1 in Hx by lia. apply (HE k x); [lia|done].
    - destruct (frame_perm_lookup m2 last s3 s' k x) as (k' & ? & Hx');
        [done|done|done|lia|done|].
      rewrite Hk1 in Hx' by lia. apply (HG k' x); [lia|done]. }
  intros i j x y Hi Hij Hj Hx Hy.
  destruct (decide (j < m1)) as [?|?].
  { rewrite Hk2 in Hx, Hy by lia. apply (Hs1 i j); (lia || done). }
  destruct (decide (m2 ≤ i)) as [?|?].
  { apply (Hs2 i j); (lia || done). }
  apply (not_less_trans x pivot y).
  - apply (Hle i); [lia|done].
  - apply (Hge j); [lia|done].
Qed.

(** On a sorted range the two partition steps move nothing. *)
Lemma quicksort_partition_sorted pivot first last s :
  valid_range first last s → sorted_range first last s →
  ∃ m1 m2, quicksort_partition pivot first last s = (s, m1, m2).
Proof.
  intros [Hfl Hlen] Hs. unfold quicksort_partition.
  assert (∀ k, k < last → is_Some (s !! k)) as Hsome
    by (intros k ?; apply lookup_lt_is_Some_2; lia).
  rewrite partition_id; [|done|].
  2:{ intros j k Hj Hjk Hk. unfold std.holds_at.
      destruct (Hsome j) as [x Hx]; [lia|]. destruct (Hsome k) as [y Hy]; [lia|].
      rewrite Hx, Hy. apply not_less_less_trans. by apply (Hs j k). }
  set (m1 := std.find_if_not first last _ s).
  assert (first ≤ m1 ≤ last) as Hm1.
  { unfold m1, std.find_if_not.
    pose proof (find_if_not_loop_spec (λ em, less em pivot) s
                  (last - first) first) as [? _]. lia. }
  rewrite partition_id; [eauto|lia|].
  intros j k Hj Hjk Hk. unfold std.holds_at.
  destruct (Hsome j) as [x Hx]; [lia|]. destruct (Hsome k) as [y Hy]; [lia|].
  rewrite Hx, Hy, !negb_true_iff. apply not_less_trans.
  apply (Hs j k); (lia || done).
Qed.

(** On a sorted range [quicksort] changes nothing. *)
Lemma quicksort_sorted_id fuel : ∀ first last s,
  valid_range first last s → last - first ≤ fuel →
  sorted_range first last s →
  quicksort fuel first last s = Some s.
Proof.
  induction fuel as [|fuel IH]; intros first last s Hv Hfuel Hs; simpl.
  { by rewrite (proj2 (Nat.eqb_eq first last)) by (destruct Hv; lia). }
  destruct (Nat.eqb_spec first last) as [|Hne]; [done|].
  assert (first < last) as Hfl by (destruct Hv; lia).
  pose proof (middle_cursor_range first last Hfl) as Hmid.
  destruct (lookup_lt_is_Some_2 s (middle_cursor first last))
    as [pivot Hpiv]; [destruct Hv; lia|].
  rewrite Hpiv; simpl.
  destruct (quicksort_partition_sorted pivot first last s Hv Hs)
    as (m1 & m2 & Hqp).
  rewrite Hqp.
  pose proof (quicksort_middle_nonempty less_irrefl _ _ _ _ _ _ _
                Hv Hfl Hpiv Hqp).
  destruct (quicksort_partition_spec _ _ _ _ _ _ _ Hv Hqp)
    as (_ & _ & ? & ? & ? & _).
  rewrite IH; simpl.
  - apply IH; [destruct Hv; split; lia|lia|].
    eapply sorted_range_weaken; [| |done]; lia.
  - destruct Hv; split; lia.
  - lia.
  - eapply sorted_range_weaken; [| |done]; lia.
Qed.
End QuicksortSorted.

(** ** Facts that hold whatever [operator<] is *)

Section AnyOrder.
Context {T : Type} `{Less T}.
Implicit Types s : list T.

Lemma min_element_loop_range lo s n : ∀ it smallest,
  lo ≤ smallest < it →
  lo ≤ std.min_element_loop n it smallest s < it + n.
Proof.
  induction n as [|n IH]; intros it smallest ?; simpl; [lia|].
  replace (it + S n) with (S it + n) by lia.
  apply IH. case_match; lia.
Qed.

Lemma min_element_range first last s :
  first < last → first ≤ std.min_element first last s < last.
Proof.
  intros ?. unfold std.min_element.
  rewrite (proj2 (Nat.eqb_neq first last)) by lia.
  pose proof (min_element_loop_range first s (last - S first) (S first) first).
  lia.
Qed.

(** A result of [selection_sort] is a reordering inside the range. *)
Lemma selection_sort_frame last fuel : ∀ i s s',
  i ≤ last → selection_sort fuel i last s = Some s' →
  frame i last s s' ∧ s ≡ₚ s'.
Proof.
  induction fuel as [|fuel IH]; intros i s s' Hil; simpl.
  { case_match; [|done]. intros [= <-]. split; [apply frame_refl|done]. }
  destruct (Nat.eqb_spec i last) as [->|Hne].
  { intros [= <-]. split; [apply frame_refl|done]. }
  intros [Hf Hp]%IH; [|lia].
  pose proof (min_element_range i last s).
  split; [|by etrans; [apply iter_swap_perm|]].
  apply (frame_trans _ _ _ (std.iter_swap i (std.min_element i last s) s));
    [apply iter_swap_frame; lia|].
  eapply frame_weaken; [| |done]; lia.
Qed.

(** [selection_sort] returns after [last - i] iterations. *)
Lemma selection_sort_returns last fuel : ∀ i s,
  i ≤ last → last - i ≤ fuel →
  ∃ s', selection_sort fuel i last s = Some s'.
Proof.
  induction fuel as [|fuel IH]; intros i s ??; simpl.
  { rewrite (proj2 (Nat.eqb_eq i last)) by lia. eauto. }
  destruct (Nat.eqb_spec i last); [eauto|]. apply IH; lia.
Qed.

Lemma merge_perm_any (l1 : list T) : ∀ l2, std.merge l1 l2 ≡ₚ l1 ++ l2.
Proof.
  induction l1 as [|x1 l1 IH1]; intros l2; [by destruct l2|].
  induction l2 as [|x2 l2 IH2]; [by rewrite app_nil_r|].
  change (std.merge (x1 :: l1) (x2 :: l2)) with
    (if less x2 x1 then x2 :: std.merge (x1 :: l1) l2
     else x1 :: std.merge l1 (x2 :: l2)).
  destruct (less x2 x1).
  - rewrite IH2. by rewrite <-Permutation_middle.
  - by rewrite IH1.
Qed.

Lemma inplace_merge_splice first middle last s :
  valid_range first last s → first ≤ middle ≤ last →
  std.inplace_merge first middle last s =
    take first s ++ std.merge (slice first middle s) (slice middle last s)
      ++ drop last s.
Proof.
  intros Hv Hm. unfold std.inplace_merge.
  assert (length (std.merge (slice first middle s) (slice middle last s))
          = last - first) as Hlen.
  { rewrite merge_perm_any, length_app.
    rewrite !slice_length by (destruct Hv; split; lia). lia. }
  rewrite write_back_splice by (destruct Hv; lia).
  rewrite Hlen. do 3 f_equal. destruct Hv. lia.
Qed.

Lemma inplace_merge_frame first middle last s :
  valid_range first last s → first ≤ middle ≤ last →
  frame first last s (std.inplace_merge first middle last s) ∧
  s ≡ₚ std.inplace_merge first middle last s.
Proof.
  intros Hv Hm. rewrite inplace_merge_splice by done. split.
  - apply splice_frame; [done|].
    rewrite merge_perm_any, length_app.
    rewrite !slice_length by (destruct Hv; split; lia). lia.
  - rewrite merge_perm_any.
    rewrite <-(slice_app first middle last) by lia.
    by rewrite <-slice_split.
Qed.

(** A result of [merge_sort] is a reordering inside the range. *)
Lemma merge_sort_frame fuel : ∀ first last s s',
  valid_range first last s → merge_sort fuel first last s = Some s' →
  frame first last s s' ∧ s ≡ₚ s'.
Proof.
  induction fuel as [|fuel IH]; intros first last s s' Hv; cbn [merge_sort].
  { case_match; [done|]. intros [= <-]. split; [apply frame_refl|done]. }
  destruct (Nat.ltb_spec 1 (last - first)) as [Hlt|Hge].
  2:{ intros [= <-]. split; [apply frame_refl|done]. }
  pose proof (halving_cursor first last Hlt) as Hmid.
  set (middle := first + (last - first) / 2) in *.
  destruct Hv as [Hfl Hlen].
  destruct (merge_sort fuel first middle s) as [s1|] eqn:Hq1;
    cbn [mbind option_bind]; [|done].
  destruct (merge_sort fuel middle last s1) as [s2|] eqn:Hq2;
    cbn [mbind option_bind]; [|done].
  intros [= <-].
  apply IH in Hq1 as [Hf1 Hp1]; [|split; lia].
  assert (length s1 = length s) as Hl1 by apply Hf1.
  apply IH in Hq2 as [Hf2 Hp2]; [|split; [lia|rewrite Hl1; lia]].
  assert (length s2 = length s1) as Hl2 by apply Hf2.
  destruct (inplace_merge_frame first middle last s2) as [Hf3 Hp3];
    [split; [lia|rewrite Hl2, Hl1; lia]|lia|].
  split; [|by rewrite Hp1, Hp2].
  eapply frame_trans; [eapply frame_weaken; [| |exact Hf1]; lia|].
  eapply frame_trans; [eapply frame_weaken; [| |exact Hf2]; lia|done].
Qed.

(** [merge_sort] returns when the budget is at least the length of the
    range. *)
Lemma merge_sort_returns fuel : ∀ first last s,
  last - first ≤ fuel → ∃ s', merge_sort fuel first last s = Some s'.
Proof.
  induction fuel as [|fuel IH]; intros first last s ?; cbn [merge_sort].
  { rewrite (proj2 (Nat.ltb_ge 1 (last - first))) by lia. eauto. }
  destruct (Nat.ltb_spec 1 (last - first)) as [Hlt|Hge]; [|eauto].
  pose proof (halving_cursor first last Hlt) as Hmid.
  set (middle := first + (last - first) / 2) in *.
  destruct (IH first middle s) as [s1 ->]; [lia|].
  cbn [mbind option_bind].
  destruct (IH middle last s1) as [s2 ->]; [lia|].
  cbn [mbind option_bind]. eauto.
Qed.



End AnyOrder.

(** ** [std::inplace_merge] and [merge_sort] *)

Section Ordered.
Context {T : Type} `{Less T}.

Lemma sorted_range_slice first last s :
  StronglySorted ordered (slice first last s) → sorted_range first last s.
Proof.
  intros Hs i j x y Hi Hij Hj Hx Hy.
  assert (slice first last s =
          slice first j s ++ y :: slice (S j) last s) as Hsplit.
  { rewrite (slice_app first j last) by lia.
    rewrite (slice_app j (S j) last) by lia.
    by rewrite (slice_singleton j s y). }
  rewrite Hsplit in Hs.
  apply (StronglySorted_app_1_elem_of _ _ _ x y) in Hs; [done| |left].
  apply elem_of_slice. exists i. split; [lia|done].
Qed.

Lemma slice_sorted_range first last s :
  sorted_range first last s → StronglySorted ordered (slice first last s).
Proof.
  unfold slice. remember (last - first) as n eqn:Hn.
  revert first Hn. induction n as [|n IH]; intros first Hn Hs.
  { rewrite take_0. constructor. }
  destruct (drop first s) as [|x l] eqn:Hd; simpl; [constructor|].
  assert (s !! first = Some x) as Hx.
  { rewrite <-(Nat.add_0_r first), <-lookup_drop. by rewrite Hd. }
  assert (l = drop (S first) s) as ->.
  { change l with (drop 1 (x :: l)). rewrite <-Hd, drop_drop.
    f_equal. lia. }
  constructor.
  - apply IH; [lia|]. eapply sorted_range_weaken; [| |done]; lia.
  - apply Forall_forall. intros y Hy.
    assert (y ∈ slice (S first) last s) as Hy'.
    { unfold slice. by replace (last - S first) with n by lia. }
    apply elem_of_slice in Hy' as (k & Hk & Hyk).
    apply (Hs first k); (lia || done).
Qed.
End Ordered.

Section MergeFacts.
Context {T : Type} `{StrictWeakOrder T}.
Implicit Types l : list T.

#[local] Instance ordered_trans : Transitive (ordered (T:=T)).
Proof. intros x y z. unfold ordered. apply not_less_trans. Qed.

Lemma merge_nil_l l : std.merge [] l = l.
Proof. by destruct l. Qed.

Lemma merge_nil_r l : std.merge l [] = l.
Proof. by destruct l. Qed.

Lemma merge_cons x1 l1 x2 l2 :
  std.merge (x1 :: l1) (x2 :: l2) =
    if less x2 x1 then x2 :: std.merge (x1 :: l1) l2
    else x1 :: std.merge l1 (x2 :: l2).
Proof. done. Qed.

Lemma Forall_ordered_trans x y l :
  ordered x y → Forall (ordered y) l → Forall (ordered x) l.
Proof.
  intros Hxy Hl. eapply Forall_impl; [done|]. intros z Hyz. by etrans.
Qed.

Lemma merge_sorted l1 : ∀ l2,
  StronglySorted ordered l1 → StronglySorted ordered l2 →
  StronglySorted ordered (std.merge l1 l2).
Proof.
  induction l1 as [|x1 l1 IH1]; intros l2; [by rewrite merge_nil_l|].
  induction l2 as [|x2 l2 IH2]; [by rewrite merge_nil_r|].
  intros Hs1 Hs2. rewrite merge_cons.
  pose proof Hs1 as [Hf1 Hs1']%StronglySorted_cons.
  pose proof Hs2 as [Hf2 Hs2']%StronglySorted_cons.
  destruct (less x2 x1) eqn:Hlt.
  - apply StronglySorted_cons. split; [|by apply IH2].
    rewrite merge_perm_any. apply Forall_app. split; [|done].
    assert (ordered x2 x1) by (by apply less_asym).
    constructor; [done|]. by apply (Forall_ordered_trans _ x1).
  - apply StronglySorted_cons. split; [|by apply IH1].
    rewrite merge_perm_any. apply Forall_app. split; [done|].
    constructor; [done|]. by apply (Forall_ordered_trans _ x2).
Qed.

Lemma filter_cons_eq (f : T → bool) a l :
  List.filter f (a :: l) =
    if f a then a :: List.filter f l else List.filter f l.
Proof. done. Qed.

(** The merge is stable: the elements equivalent to [x] come out in the
    order they have in the first sequence, then in the second. *)
Lemma merge_stable x l1 : ∀ l2,
  StronglySorted ordered l1 →
  List.filter (equiv x) (std.merge l1 l2) =
    List.filter (equiv x) l1 ++ List.filter (equiv x) l2.
Proof.
  induction l1 as [|x1 l1 IH1]; intros l2; [by rewrite merge_nil_l|].
  induction l2 as [|x2 l2 IH2]; [by rewrite merge_nil_r, app_nil_r|].
  intros Hs1. rewrite merge_cons.
  pose proof Hs1 as [Hf1 Hs1']%StronglySorted_cons.
  destruct (less x2 x1) eqn:Hlt.
  - rewrite (filter_cons_eq _ x2 l2), filter_cons_eq, IH2 by done.
    destruct (equiv x x2) eqn:Heq; [|done].
    (* nothing in the first sequence is equivalent to [x2] *)
    assert (List.filter (equiv x) (x1 :: l1) = []) as ->; [|done].
    rewrite <-(List.filter_false (x1 :: l1)).
    apply List.filter_ext_in. intros z Hz.
    assert (less x2 z = true) as Hx2z.
    { apply List.in_inv in Hz as [<-|Hz]; [done|].
      rewrite Forall_forall in Hf1.
      apply (less_not_less_trans x2 x1 z); [done|].
      apply Hf1. by apply list_elem_of_In. }
    unfold equiv. rewrite (equiv_less_l x x2 z Heq), Hx2z. done.
  - rewrite (filter_cons_eq _ x1 l1), filter_cons_eq, IH1 by done.
    by destruct (equiv x x1).
Qed.

Lemma merge_sorted_app l1 : ∀ l2,
  StronglySorted ordered (l1 ++ l2) → std.merge l1 l2 = l1 ++ l2.
Proof.
  induction l1 as [|x1 l1 IH1]; intros l2; [by rewrite merge_nil_l|].
  destruct l2 as [|x2 l2]; [by rewrite merge_nil_r, app_nil_r|].
  intros Hs. rewrite merge_cons.
  assert (less x2 x1 = false) as ->.
  { change (ordered x1 x2).
    apply (StronglySorted_app_1_elem_of _ (x1 :: l1) (x2 :: l2));
      [done|left|left]. }
  rewrite IH1; [done|].
  by apply StronglySorted_cons in Hs as [_ ?].
Qed.
End MergeFacts.

Section MergeSort.
Context {T : Type} `{StrictWeakOrder T}.
Implicit Types s : list T.

Lemma inplace_merge_spec first middle last s :
  valid_range first last s → first ≤ middle ≤ last →
  frame first last s (std.inplace_merge first middle last s) ∧
  slice first last (std.inplace_merge first middle last s) =
    std.merge (slice first middle s) (slice middle last s).
Proof.
  intros Hv Hm. rewrite inplace_merge_splice by done.
  apply splice_frame; [done|].
  rewrite merge_perm_any, length_app.
  rewrite !slice_length by (destruct Hv; split; lia). lia.
Qed.

(** [merge_sort] returns when the budget is at least the length of the
    range; the result is a reordering inside the range, which is sorted
    and keeps equivalent elements in their order. *)
Lemma merge_sort_spec fuel : ∀ first last s,
  valid_range first last s → last - first ≤ fuel →
  ∃ s', merge_sort fuel first last s = Some s' ∧
        frame first last s s' ∧
        slice first last s' ≡ₚ slice first last s ∧
        StronglySorted ordered (slice first last s') ∧
        stable_on first last s s'.
Proof.
  induction fuel as [|fuel IH]; intros first last s Hv Hfuel; cbn [merge_sort].
  { rewrite (proj2 (Nat.ltb_ge 1 (last - first))) by lia.
    exists s. split_and!; [done|apply frame_refl|done| |done].
    pose proof (slice_length first last s Hv).
    destruct (slice first last s) as [|? [|]]; simpl in *;
      [constructor|repeat constructor|lia]. }
  destruct (Nat.ltb_spec 1 (last - first)) as [Hlt|Hge].
  2:{ exists s. split_and!; [done|apply frame_refl|done| |done].
      pose proof (slice_length first last s Hv).
      destruct (slice first last s) as [|? [|? ?]]; simpl in *;
        [constructor|repeat constructor|lia]. }
  set (middle := first + (last - first) / 2).
  assert (first < middle < last) as Hmid.
  { unfold middle. by apply halving_cursor. }
  destruct Hv as [Hfl Hlen].
  destruct (IH first middle s) as (s1 & -> & Hf1 & Hp1 & Hs1 & Hst1);
    [split; lia|lia|]. cbn [mbind option_bind].
  assert (length s1 = length s) as Hl1 by apply Hf1.
  destruct (IH middle last s1) as (s2 & -> & Hf2 & Hp2 & Hs2 & Hst2);
    [split; [lia|rewrite Hl1; lia]|lia|]. cbn [mbind option_bind].
  assert (length s2 = length s1) as Hl2 by apply Hf2.
  destruct (inplace_merge_spec first middle last s2) as [Hf3 Hsl];
    [split; [lia|rewrite Hl2, Hl1; lia]|lia|].
  (* the two halves of [s2] *)
  assert (slice first middle s2 = slice first middle s1) as Hleft
    by (apply (slice_frame_outside middle last); [done|lia]).
  assert (slice middle last s1 = slice middle last s) as Hright
    by (apply (slice_frame_outside first middle); [done|lia]).
  rewrite Hleft in Hsl.
  eexists. split; [done|]. rewrite Hsl. split_and!.
  - eapply frame_trans; [eapply frame_weaken; [| |exact Hf1]; lia|].
    eapply frame_trans; [eapply frame_weaken; [| |exact Hf2]; lia|done].
  - rewrite merge_perm_any, Hp1, Hp2, Hright.
    by rewrite (slice_app first middle last) by lia.
  - by apply merge_sorted.
  - intros x. rewrite Hsl, merge_stable by done.
    rewrite (slice_app first middle last s), List.filter_app by lia.
    by rewrite Hst1, Hst2, Hright.
Qed.

(** On a sorted range [merge_sort] changes nothing. *)
Lemma merge_sort_sorted_id fuel : ∀ first last s,
  valid_range first last s → last - first ≤ fuel →
  StronglySorted ordered (slice first last s) →
  merge_sort fuel first last s = Some s.
Proof.
  induction fuel as [|fuel IH]; intros first last s Hv Hfuel Hs; cbn [merge_sort].
  { by rewrite (proj2 (Nat.ltb_ge 1 (last - first))) by lia. }
  destruct (Nat.ltb_spec 1 (last - first)) as [Hlt|Hge]; [|done].
  set (middle := first + (last - first) / 2).
  assert (first < middle < last) as Hmid.
  { unfold middle. by apply halving_cursor. }
  pose proof Hv as [Hfl Hlen].
  rewrite (slice_app first middle last) in Hs by lia.
  rewrite IH; [cbn [mbind option_bind]|split; lia|lia|by eapply StronglySorted_app_1_l].
  rewrite IH; [cbn [mbind option_bind]|split; lia|lia|by eapply StronglySorted_app_1_r].
  rewrite inplace_merge_splice by (done || lia).
  rewrite merge_sorted_app by done.
  rewrite <-(slice_app first middle last) by lia.
  by rewrite <-slice_split.
Qed.
End MergeSort.

(** ** The orderings of the element types *)

#[export] Instance int_strict_weak_order : StrictWeakOrder Z.
Proof.
  split; unfold less, int_less; intros *;
    rewrite ?Z.ltb_lt, ?Z.ltb_ge; lia.
Qed.

#[export] Instance Desc_strict_weak_order : StrictWeakOrder Desc.
Proof.
  split; unfold less, Desc_less; intros *;
    rewrite ?Z.ltb_lt, ?Z.ltb_ge; lia.
Qed.

#[export] Instance Tagged_strict_weak_order : StrictWeakOrder Tagged.
Proof.
  split; unfold less, Tagged_less; intros *;
    rewrite ?Z.ltb_lt, ?Z.ltb_ge; lia.
Qed.

(** ** Sorted permutations of a range without equivalent elements *)

Section Distinct.
Context {T : Type} `{StrictWeakOrder T}.
Implicit Types s : list T.

Lemma distinct_range_antisym first last s x y :
  distinct_range first last s →
  x ∈ slice first last s → y ∈ slice first last s →
  ordered x y → ordered y x → x = y.
Proof.
  intros Hd (i & Hi & Hx)%elem_of_slice (j & Hj & Hy)%elem_of_slice Hxy Hyx.
  unfold ordered in *.
  destruct (Nat.lt_total i j) as [?|[->|?]]; [|congruence|].
  - pose proof (Hd i j x y) as Heq. unfold equiv in Heq.
    rewrite Hxy, Hyx in Heq. discriminate Heq; (lia || done).
  - pose proof (Hd j i y x) as Heq. unfold equiv in Heq.
    rewrite Hxy, Hyx in Heq. discriminate Heq; (lia || done).
Qed.

(** Two sorted reorderings of such a range are the same sequence. *)
Lemma sorted_reordering_unique first last s s1 s2 :
  valid_range first last s → distinct_range first last s →
  frame first last s s1 → s ≡ₚ s1 → sorted_range first last s1 →
  frame first last s s2 → s ≡ₚ s2 → sorted_range first last s2 →
  s1 = s2.
Proof.
  intros Hv Hd Hf1 Hp1 Hs1 Hf2 Hp2 Hs2.
  rewrite (frame_split first last s s1), (frame_split first last s s2)
    by done.
  do 2 f_equal.
  pose proof (frame_slice_perm first last s s1 Hv Hf1 Hp1) as Hsl1.
  pose proof (frame_slice_perm first last s s2 Hv Hf2 Hp2) as Hsl2.
  apply (StronglySorted_unique_strong ordered);
    [|by apply slice_sorted_range..|by rewrite <-Hsl1].
  intros x y Hx Hy. rewrite <-Hsl1 in Hx. rewrite <-Hsl2 in Hy.
  by apply (distinct_range_antisym first last s).
Qed.
End Distinct.

(** * The properties of the three sorts *)

(** C1.  For a strict weak ordering (a total order is one), each of
    [selection_sort], [quicksort] and [merge_sort], called on a range of a
    sequence with a budget of at least the length of the range, returns;
    in the result the range is non-descending and holds a permutation of
    the elements it held before the call. *)
Theorem sorts_sorted_permutation {T : Type} `{StrictWeakOrder T}
    (first last fuel : nat) (s : list T) :
  valid_range first last s → last - first ≤ fuel →
  (∃ s', selection_sort fuel first last s = Some s' ∧
         sorted_range first last s' ∧
         slice first last s' ≡ₚ slice first last s) ∧
  (∃ s', quicksort fuel first last s = Some s' ∧
         sorted_range first last s' ∧
         slice first last s' ≡ₚ slice first last s) ∧
  (∃ s', merge_sort fuel first last s = Some s' ∧
         sorted_range first last s' ∧
         slice first last s' ≡ₚ slice first last s).
Proof.
  intros Hv Hfuel. split_and!.
  - destruct (selection_sort_spec last fuel first s Hv Hfuel)
      as (s' & Hs & Hf & Hp & Hsorted).
    exists s'. split_and!; [done|done|].
    symmetry. by apply frame_slice_perm.
  - destruct (quicksort_returns less_irrefl fuel first last s Hv Hfuel)
      as [s' Hs].
    destruct (quicksort_frame fuel first last s s' Hv Hs) as [Hf Hp].
    exists s'. split_and!; [done|by eapply quicksort_sorted|].
    symmetry. by apply frame_slice_perm.
  - destruct (merge_sort_spec fuel first last s Hv Hfuel)
      as (s' & Hs & Hf & Hp & Hsorted & _).
    exists s'. split_and!; [done|by apply sorted_range_slice|done].
Qed.

Lemma sorts_sorted_permutation_witness :
  valid_range 1 6 [9; 5; 3; 1; 4; 2; 0]%Z ∧ 6 - 1 ≤ 5 ∧
  (∃ s', selection_sort 5 1 6 [9; 5; 3; 1; 4; 2; 0]%Z = Some s' ∧
         sorted_range 1 6 s' ∧
         slice 1 6 s' ≡ₚ slice 1 6 [9; 5; 3; 1; 4; 2; 0]%Z) ∧
  (∃ s', quicksort 5 1 6 [9; 5; 3; 1; 4; 2; 0]%Z = Some s' ∧
         sorted_range 1 6 s' ∧
         slice 1 6 s' ≡ₚ slice 1 6 [9; 5; 3; 1; 4; 2; 0]%Z) ∧
  (∃ s', merge_sort 5 1 6 [9; 5; 3; 1; 4; 2; 0]%Z = Some s' ∧
         sorted_range 1 6 s' ∧
         slice 1 6 s' ≡ₚ slice 1 6 [9; 5; 3; 1; 4; 2; 0]%Z).
Proof.
  assert (valid_range 1 6 [9; 5; 3; 1; 4; 2; 0]%Z) as Hv
    by (split; simpl; lia).
  assert (6 - 1 ≤ 5) as Hfuel by (simpl; lia).
  split; [exact Hv|]. split; [exact Hfuel|].
  exact (sorts_sorted_permutation 1 6 5 [9; 5; 3; 1; 4; 2; 0]%Z Hv Hfuel).
Defined.

(** C2.  [merge_sort] is stable: for a strict weak ordering, the elements
    of the range that are equivalent to a given one (they may differ in a
    part that [operator<] does not look at) are in the same relative
    order after the call as before. *)
Theorem merge_sort_stable {T : Type} `{StrictWeakOrder T}
    (first last fuel : nat) (s : list T) :
  valid_range first last s → last - first ≤ fuel →
  ∃ s', merge_sort fuel first last s = Some s' ∧ stable_on first last s s'.
Proof.
  intros Hv Hfuel.
  destruct (merge_sort_spec fuel first last s Hv Hfuel)
    as (s' & Hs & _ & _ & _ & Hst).
  by exists s'.
Qed.

Lemma merge_sort_stable_witness :
  valid_range 0 4 tagged_input ∧ 4 - 0 ≤ 4 ∧
  ∃ s', merge_sort 4 0 4 tagged_input = Some s' ∧
        stable_on 0 4 tagged_input s'.
Proof.
  assert (valid_range 0 4 tagged_input) as Hv by (split; simpl; lia).
  assert (4 - 0 ≤ 4) as Hfuel by (simpl; lia).
  split; [exact Hv|]. split; [exact Hfuel|].
  exact (merge_sort_stable 0 4 4 tagged_input Hv Hfuel).
Defined.



(** C4.  When no element is less than itself, every call of
    [selection_sort], [quicksort] or [merge_sort] on a range of a sequence
    returns as soon as the budget reaches the length of the range; and
    [quicksort] on 7 7 7 7 7 returns 7 7 7 7 7 with a single level of
    recursion. *)
Theorem sorts_terminate {T : Type} `{Less T}
    (first last fuel : nat) (s : list T) :
  (∀ x : T, less x x = false) →
  valid_range first last s → last - first ≤ fuel →
  (∃ s', selection_sort fuel first last s = Some s') ∧
  (∃ s', quicksort fuel first last s = Some s') ∧
  (∃ s', merge_sort fuel first last s = Some s') ∧
  quicksort 1 0 5 [7; 7; 7; 7; 7]%Z = Some [7; 7; 7; 7; 7]%Z.
Proof.
  intros Hirr Hv Hfuel. split_and!.
  - apply selection_sort_returns; [apply Hv|done].
  - by apply quicksort_returns.
  - by apply merge_sort_returns.
  - vm_compute. reflexivity.
Qed.

Lemma sorts_terminate_witness :
  (∀ x : Z, less x x = false) ∧
  valid_range 0 5 [7; 7; 7; 7; 7]%Z ∧ 5 - 0 ≤ 5 ∧
  (∃ s', selection_sort 5 0 5 [7; 7; 7; 7; 7]%Z = Some s') ∧
  (∃ s', quicksort 5 0 5 [7; 7; 7; 7; 7]%Z = Some s') ∧
  (∃ s', merge_sort 5 0 5 [7; 7; 7; 7; 7]%Z = Some s') ∧
  quicksort 1 0 5 [7; 7; 7; 7; 7]%Z = Some [7; 7; 7; 7; 7]%Z.
Proof.
  assert (∀ x : Z, less x x = false) as Hirr by exact Z.ltb_irrefl.
  assert (valid_range 0 5 [7; 7; 7; 7; 7]%Z) as Hv by (split; simpl; lia).
  assert (5 - 0 ≤ 5) as Hfuel by (simpl; lia).
  split; [exact Hirr|]. split; [exact Hv|]. split; [exact Hfuel|].
  exact (sorts_terminate 0 5 5 [7; 7; 7; 7; 7]%Z Hirr Hv Hfuel).
Defined.

(** C5.  For a strict weak ordering, a [quicksort] call on a nonempty range
    of a sequence takes as pivot the element at
    [first + (last - first) / 2].  The two partition steps reorder the
    range only, and split it into three blocks: every element of
    [first, middle1) is less than the pivot, every element of
    [middle1, middle2) is neither greater nor less than the pivot, and
    every element of [middle2, last) is greater than the pivot; the pivot
    is in the middle block, which is therefore not empty.  The call is
    then the two recursive calls on [first, middle1) and [middle2, last)
    and nothing else; it returns, and in what it returns the middle block
    is as the partition steps left it and in its final position: the range
    is sorted, with only lesser elements before [middle1] and only greater
    ones from [middle2] on. *)
Theorem quicksort_three_way {T : Type} `{StrictWeakOrder T}
    (first last fuel : nat) (s : list T) :
  valid_range first last s → first < last → last - first ≤ fuel →
  ∃ pivot s2 middle1 middle2 s',
    s !! (first + (last - first) / 2) = Some pivot ∧
    quicksort_partition pivot first last s = (s2, middle1, middle2) ∧
    (frame first last s s2 ∧ slice first last s2 ≡ₚ slice first last s) ∧
    (first ≤ middle1 ∧ middle1 < middle2 ∧ middle2 ≤ last) ∧
    (∃ k, middle1 ≤ k < middle2 ∧ s2 !! k = Some pivot) ∧
    (∀ k x, first ≤ k < middle1 → s2 !! k = Some x →
            less x pivot = true) ∧
    (∀ k x, middle1 ≤ k < middle2 → s2 !! k = Some x →
            less pivot x = false ∧ less x pivot = false) ∧
    (∀ k x, middle2 ≤ k < last → s2 !! k = Some x →
            less pivot x = true) ∧
    (∀ fuel', quicksort (S fuel') first last s =
                s3 ← quicksort fuel' first middle1 s2;
                quicksort fuel' middle2 last s3) ∧
    quicksort fuel first last s = Some s' ∧
    (∀ k, middle1 ≤ k < middle2 → s' !! k = s2 !! k) ∧
    sorted_range first last s' ∧
    (∀ k x, first ≤ k < middle1 → s' !! k = Some x →
            less x pivot = true) ∧
    (∀ k x, middle2 ≤ k < last → s' !! k = Some x →
            less pivot x = true).
Proof.
  intros Hv Hfl Hfuel.
  pose proof (middle_cursor_range first last Hfl) as Hmid.
  destruct (lookup_lt_is_Some_2 s (middle_cursor first last))
    as [pivot Hpiv]; [destruct Hv; lia|].
  destruct (quicksort_partition pivot first last s) as [[s2 m1] m2] eqn:Hqp.
  destruct (quicksort_partition_spec _ _ _ _ _ _ _ Hv Hqp)
    as (Hf & Hp & ? & ? & ? & HL & HE & HG).
  destruct (quicksort_partition_pivot pivot first last s s2 m1 m2)
    as (kp & Hkp & Hxp); [apply less_irrefl|done| |done|].
  { exists (middle_cursor first last). split; [lia|done]. }
  assert (∀ fuel', quicksort (S fuel') first last s =
                     s3 ← quicksort fuel' first m1 s2;
                     quicksort fuel' m2 last s3) as Hstep.
  { intros fuel'. simpl.
    rewrite (proj2 (Nat.eqb_neq first last)) by lia.
    rewrite Hpiv. simpl. by rewrite Hqp. }
  (* the call returns; its result comes from the two recursive calls *)
  destruct (quicksort_returns less_irrefl fuel first last s Hv Hfuel)
    as [s' Hs'].
  pose proof (quicksort_sorted fuel first last s s' Hv Hs') as Hsorted.
  destruct fuel as [|fuel]; [lia|].
  pose proof Hs' as Hcalls. rewrite Hstep in Hcalls.
  destruct (quicksort fuel first m1 s2) as [s3|] eqn:Hq1;
    simpl in Hcalls; [|done].
  assert (length s2 = length s) as Hl2 by apply Hf.
  assert (valid_range first m1 s2) as Hv1
    by (destruct Hv; split; [lia|rewrite Hl2; lia]).
  destruct (quicksort_frame _ _ _ _ _ Hv1 Hq1) as [Hf1 Hp1].
  assert (length s3 = length s2) as Hl3 by apply Hf1.
  assert (valid_range m2 last s3) as Hv2
    by (destruct Hv; split; [lia|rewrite Hl3, Hl2; lia]).
  destruct (quicksort_frame _ _ _ _ _ Hv2 Hcalls) as [Hf2 Hp2].
  pose proof Hf1 as [_ Hk1]. pose proof Hf2 as [_ Hk2].
  exists pivot, s2, m1, m2, s'.
  split_and!; [done|done|done| |lia|lia|lia|by exists kp|done| | |
               done|done| |done| |].
  - symmetry. by apply frame_slice_perm.
  - intros k x Hk Hx. destruct (HE k x Hk Hx). done.
  - intros k x Hk Hx. by destruct (HG k x Hk Hx).
  - intros k Hk. rewrite Hk2, Hk1 by lia. done.
  - intros k x Hk Hx. rewrite Hk2 in Hx by lia.
    destruct (frame_perm_lookup first m1 s2 s3 k x) as (k' & ? & ?);
      [done|done|done|lia|done|].
    by apply (HL k').
  - intros k x Hk Hx.
    destruct (frame_perm_lookup m2 last s3 s' k x) as (k' & ? & Hx');
      [done|done|done|lia|done|].
    rewrite Hk1 in Hx' by lia. by destruct (HG k' x).
Qed.

Lemma quicksort_three_way_witness :
  valid_range 1 6 [9; 5; 3; 4; 1; 4; 0]%Z ∧ 1 < 6 ∧ 6 - 1 ≤ 5 ∧
  ∃ pivot s2 middle1 middle2 s',
    [9; 5; 3; 4; 1; 4; 0]%Z !! (1 + (6 - 1) / 2) = Some pivot ∧
    quicksort_partition pivot 1 6 [9; 5; 3; 4; 1; 4; 0]%Z
      = (s2, middle1, middle2) ∧
    (frame 1 6 [9; 5; 3; 4; 1; 4; 0]%Z s2 ∧
     slice 1 6 s2 ≡ₚ slice 1 6 [9; 5; 3; 4; 1; 4; 0]%Z) ∧
    (1 ≤ middle1 ∧ middle1 < middle2 ∧ middle2 ≤ 6) ∧
    (∃ k, middle1 ≤ k < middle2 ∧ s2 !! k = Some pivot) ∧
    (∀ k x, 1 ≤ k < middle1 → s2 !! k = Some x → less x pivot = true) ∧
    (∀ k x, middle1 ≤ k < middle2 → s2 !! k = Some x →
            less pivot x = false ∧ less x pivot = false) ∧
    (∀ k x, middle2 ≤ k < 6 → s2 !! k = Some x → less pivot x = true) ∧
    (∀ fuel', quicksort (S fuel') 1 6 [9; 5; 3; 4; 1; 4; 0]%Z =
                s3 ← quicksort fuel' 1 middle1 s2;
                quicksort fuel' middle2 6 s3) ∧
    quicksort 5 1 6 [9; 5; 3; 4; 1; 4; 0]%Z = Some s' ∧
    (∀ k, middle1 ≤ k < middle2 → s' !! k = s2 !! k) ∧
    sorted_range 1 6 s' ∧
    (∀ k x, 1 ≤ k < middle1 → s' !! k = Some x → less x pivot = true) ∧
    (∀ k x, middle2 ≤ k < 6 → s' !! k = Some x → less pivot x = true).
Proof.
  assert (valid_range 1 6 [9; 5; 3; 4; 1; 4; 0]%Z) as Hv
    by (split; simpl; lia).
  assert (1 < 6) as Hfl by lia.
  assert (6 - 1 ≤ 5) as Hfuel by (simpl; lia).
  split; [exact Hv|]. split; [exact Hfl|]. split; [exact Hfuel|].
  exact (quicksort_three_way 1 6 5 [9; 5; 3; 4; 1; 4; 0]%Z Hv Hfl Hfuel).
Defined.

(** C6.  Neither [selection_sort] nor [quicksort] is stable: on the records
    (2,0) (1,1) (2,2) (1,3), ordered by their first component, each of them
    returns the two records of key 2 in the order (2,2) (2,0). *)
Theorem selection_sort_quicksort_not_stable :
  (∃ s', selection_sort 4 0 4 tagged_input = Some s' ∧
         List.filter (equiv (mkTagged 2 0)) (slice 0 4 tagged_input)
           = [mkTagged 2 0; mkTagged 2 2] ∧
         List.filter (equiv (mkTagged 2 0)) (slice 0 4 s')
           = [mkTagged 2 2; mkTagged 2 0] ∧
         ¬ stable_on 0 4 tagged_input s') ∧
  (∃ s', quicksort 4 0 4 tagged_input = Some s' ∧
         List.filter (equiv (mkTagged 2 0)) (slice 0 4 tagged_input)
           = [mkTagged 2 0; mkTagged 2 2] ∧
         List.filter (equiv (mkTagged 2 0)) (slice 0 4 s')
           = [mkTagged 2 2; mkTagged 2 0] ∧
         ¬ stable_on 0 4 tagged_input s').
Proof.
  split.
  - exists [mkTagged 1 1; mkTagged 1 3; mkTagged 2 2; mkTagged 2 0].
    split_and!; [vm_compute; reflexivity..|].
    intros Hst. specialize (Hst (mkTagged 2 0)).
    vm_compute in Hst. discriminate Hst.
  - exists [mkTagged 1 1; mkTagged 1 3; mkTagged 2 2; mkTagged 2 0].
    split_and!; [vm_compute; reflexivity..|].
    intros Hst. specialize (Hst (mkTagged 2 0)).
    vm_compute in Hst. discriminate Hst.
Qed.

(** C7.  Whatever a call of [selection_sort], [quicksort] or [merge_sort]
    on a range of a sequence returns has the length of the sequence and
    its elements at every position outside the range. *)
Theorem sorts_frame {T : Type} `{Less T} (first last : nat) (s : list T) :
  valid_range first last s →
  ∀ fuel s',
    (selection_sort fuel first last s = Some s' →
     length s' = length s ∧
     ∀ k, k < first ∨ last ≤ k → s' !! k = s !! k) ∧
    (quicksort fuel first last s = Some s' →
     length s' = length s ∧
     ∀ k, k < first ∨ last ≤ k → s' !! k = s !! k) ∧
    (merge_sort fuel first last s = Some s' →
     length s' = length s ∧
     ∀ k, k < first ∨ last ≤ k → s' !! k = s !! k).
Proof.
  intros Hv fuel s'. split_and!; intros Hs.
  - apply selection_sort_frame in Hs as [Hf _]; [done|apply Hv].
  - by apply quicksort_frame in Hs as [Hf _].
  - by apply merge_sort_frame in Hs as [Hf _].
Qed.

Lemma sorts_frame_witness :
  valid_range 1 6 [9; 5; 3; 4; 1; 4; 0]%Z ∧
  selection_sort 5 1 6 [9; 5; 3; 4; 1; 4; 0]%Z
    = Some [9; 1; 3; 4; 4; 5; 0]%Z ∧
  quicksort 5 1 6 [9; 5; 3; 4; 1; 4; 0]%Z = Some [9; 1; 3; 4; 4; 5; 0]%Z ∧
  merge_sort 5 1 6 [9; 5; 3; 4; 1; 4; 0]%Z = Some [9; 1; 3; 4; 4; 5; 0]%Z ∧
  length [9; 1; 3; 4; 4; 5; 0]%Z = length [9; 5; 3; 4; 1; 4; 0]%Z ∧
  ∀ k, k < 1 ∨ 6 ≤ k →
       [9; 1; 3; 4; 4; 5; 0]%Z !! k = [9; 5; 3; 4; 1; 4; 0]%Z !! k.
Proof.
  assert (valid_range 1 6 [9; 5; 3; 4; 1; 4; 0]%Z) as Hv
    by (split; simpl; lia).
  assert (quicksort 5 1 6 [9; 5; 3; 4; 1; 4; 0]%Z
            = Some [9; 1; 3; 4; 4; 5; 0]%Z) as Hq
    by (vm_compute; reflexivity).
  split; [exact Hv|].
  split; [vm_compute; reflexivity|]. split; [exact Hq|].
  split; [vm_compute; reflexivity|].
  exact (proj1 (proj2 (sorts_frame 1 6 [9; 5; 3; 4; 1; 4; 0]%Z Hv
                         5 [9; 1; 3; 4; 4; 5; 0]%Z)) Hq).
Defined.

(** C8.  For a strict weak ordering each of the three sorts is idempotent:
    called again on the range it has sorted, with the same budget, it
    returns the sequence unchanged. *)
Theorem sorts_idempotent {T : Type} `{StrictWeakOrder T}
    (first last fuel : nat) (s : list T) :
  valid_range first last s → last - first ≤ fuel →
  (∃ s', selection_sort fuel first last s = Some s' ∧
         selection_sort fuel first last s' = Some s') ∧
  (∃ s', quicksort fuel first last s = Some s' ∧
         quicksort fuel first last s' = Some s') ∧
  (∃ s', merge_sort fuel first last s = Some s' ∧
         merge_sort fuel first last s' = Some s').
Proof.
  intros Hv Hfuel. split_and!.
  - destruct (selection_sort_spec last fuel first s Hv Hfuel)
      as (s' & Hs & _ & _ & Hsorted).
    exists s'. split; [done|].
    apply selection_sort_sorted; [apply Hv|done|done].
  - destruct (quicksort_returns less_irrefl fuel first last s Hv Hfuel)
      as [s' Hs].
    destruct (quicksort_frame fuel first last s s' Hv Hs) as [Hf _].
    exists s'. split; [done|].
    apply quicksort_sorted_id; [by eapply frame_valid_range|done|].
    by eapply quicksort_sorted.
  - destruct (merge_sort_spec fuel first last s Hv Hfuel)
      as (s' & Hs & Hf & _ & Hsorted & _).
    exists s'. split; [done|].
    apply merge_sort_sorted_id; [by eapply frame_valid_range|done|done].
Qed.

Lemma sorts_idempotent_witness :
  valid_range 0 4 tagged_input ∧ 4 - 0 ≤ 4 ∧
  (∃ s', selection_sort 4 0 4 tagged_input = Some s' ∧
         selection_sort 4 0 4 s' = Some s') ∧
  (∃ s', quicksort 4 0 4 tagged_input = Some s' ∧
         quicksort 4 0 4 s' = Some s') ∧
  (∃ s', merge_sort 4 0 4 tagged_input = Some s' ∧
         merge_sort 4 0 4 s' = Some s').
Proof.
  assert (valid_range 0 4 tagged_input) as Hv by (split; simpl; lia).
  assert (4 - 0 ≤ 4) as Hfuel by (simpl; lia).
  split; [exact Hv|]. split; [exact Hfuel|].
  exact (sorts_idempotent 0 4 4 tagged_input Hv Hfuel).
Defined.

(** C9.  For a strict weak ordering the three sorts, called on the same
    range of the same sequence, return sequences whose ranges hold the same
    multiset of elements; when no two elements of the range are equivalent
    under the ordering, the three results are the same sequence. *)
Theorem sorts_agree {T : Type} `{StrictWeakOrder T}
    (first last fuel : nat) (s : list T) :
  valid_range first last s → last - first ≤ fuel →
  ∃ s1 s2 s3,
    selection_sort fuel first last s = Some s1 ∧
    quicksort fuel first last s = Some s2 ∧
    merge_sort fuel first last s = Some s3 ∧
    slice first last s1 ≡ₚ slice first last s2 ∧
    slice first last s2 ≡ₚ slice first last s3 ∧
    (distinct_range first last s → s1 = s2 ∧ s2 = s3).
Proof.
  intros Hv Hfuel.
  destruct (selection_sort_spec last fuel first s Hv Hfuel)
    as (s1 & Hs1 & Hf1 & Hp1 & Hsorted1).
  destruct (quicksort_returns less_irrefl fuel first last s Hv Hfuel)
    as [s2 Hs2].
  destruct (quicksort_frame fuel first last s s2 Hv Hs2) as [Hf2 Hp2].
  pose proof (quicksort_sorted fuel first last s s2 Hv Hs2) as Hsorted2.
  destruct (merge_sort_spec fuel first last s Hv Hfuel)
    as (s3 & Hs3 & Hf3 & Hsl3 & Hsorted3%sorted_range_slice & _).
  destruct (merge_sort_frame fuel first last s s3 Hv Hs3) as [_ Hp3].
  exists s1, s2, s3. split_and!; [done..| | |].
  - by rewrite <-(frame_slice_perm first last s s1),
               <-(frame_slice_perm first last s s2).
  - by rewrite <-(frame_slice_perm first last s s2), Hsl3.
  - intros Hd. split.
    + by apply (sorted_reordering_unique first last s).
    + by apply (sorted_reordering_unique first last s).
Qed.

Lemma sorts_agree_witness :
  valid_range 0 5 [5; 3; 1; 4; 2]%Z ∧ 5 - 0 ≤ 5 ∧
  ∃ s1 s2 s3,
    selection_sort 5 0 5 [5; 3; 1; 4; 2]%Z = Some s1 ∧
    quicksort 5 0 5 [5; 3; 1; 4; 2]%Z = Some s2 ∧
    merge_sort 5 0 5 [5; 3; 1; 4; 2]%Z = Some s3 ∧
    slice 0 5 s1 ≡ₚ slice 0 5 s2 ∧
    slice 0 5 s2 ≡ₚ slice 0 5 s3 ∧
    (distinct_range 0 5 [5; 3; 1; 4; 2]%Z → s1 = s2 ∧ s2 = s3).
Proof.
  assert (valid_range 0 5 [5; 3; 1; 4; 2]%Z) as Hv by (split; simpl; lia).
  assert (5 - 0 ≤ 5) as Hfuel by (simpl; lia).
  split; [exact Hv|]. split; [exact Hfuel|].
  exact (sorts_agree 0 5 5 [5; 3; 1; 4; 2]%Z Hv Hfuel).
Defined.



(** * More of the repository's code *)

(** ** [in_quote] and [consecutive_values] *)

Section SearchFacts.
Context {T : Type} `{EqDecision T}.
Implicit Types hay needle l : list T.

Lemma search_at_matched hay needle :
  std.search_at hay needle = std.Matched ↔ ∃ rest, hay = needle ++ rest.
Proof.
  revert hay. induction needle as [|y needle IH]; intros hay; simpl.
  { split; [eauto|done]. }
  destruct hay as [|x hay]; [split; [done|by intros [? ?]]|].
  case_decide as Hxy.
  - subst. rewrite IH. split; intros [rest Hrest]; exists rest.
    + by rewrite Hrest.
    + by simplify_eq.
  - split; [done|]. intros [rest Hrest]. by simplify_eq.
Qed.

Lemma search_at_exhausted hay needle :
  std.search_at hay needle = std.Exhausted → length hay < length needle.
Proof.
  revert hay. induction needle as [|y needle IH]; intros hay; simpl; [done|].
  destruct hay as [|x hay]; simpl; [lia|].
  case_decide; [|done]. intros ?%IH. lia.
Qed.

Lemma search_at_differs hay needle :
  std.search_at hay needle = std.Differs → hay ≠ [].
Proof.
  destruct needle, hay; simpl; done.
Qed.

(** [search_from] stops before [last] exactly when the needle occurs in a
    haystack that is not empty. *)
Lemma search_from_spec needle hay : ∀ first,
  first ≤ std.search_from first hay needle ≤ first + length hay ∧
  (std.search_from first hay needle < first + length hay ↔
   hay ≠ [] ∧ ∃ l1 l2, hay = l1 ++ needle ++ l2).
Proof.
  induction hay as [|x hay IH]; intros first.
  { simpl. destruct (std.search_at [] needle); simpl;
      (split; [lia|]); (split; [lia|by intros [? _]]). }
  cbn [std.search_from].
  destruct (std.search_at (x :: hay) needle) eqn:Hat.
  - split; [simpl; lia|]. split; [|simpl; lia].
    intros _. split; [done|].
    apply search_at_matched in Hat as [rest Hrest]. by exists [], rest.
  - apply search_at_exhausted in Hat. split; [lia|].
    split; [lia|]. intros [_ (l1 & l2 & Hocc)].
    rewrite Hocc, !length_app in Hat. lia.
  - destruct (IH (S first)) as [Hrange Hiff]. split; [simpl; lia|].
    replace (first + length (x :: hay)) with (S first + length hay)
      by (simpl; lia).
    rewrite Hiff. split.
    + intros [_ (l1 & l2 & ->)]. split; [done|]. by exists (x :: l1), l2.
    + intros [_ (l1 & l2 & Hocc)].
      destruct l1 as [|x' l1]; simpl in Hocc.
      { assert (std.search_at (x :: hay) needle = std.Matched) as Hm
          by (apply search_at_matched; eauto).
        congruence. }
      simplify_eq. split; [|eauto].
      intros Hnil. apply app_eq_nil in Hnil as [-> [-> ->]%app_eq_nil].
      simpl in Hat. done.
Qed.

Lemma search_n_walk_spec (count : nat) (value : T) l : ∀ first run,
  run < count → run ≤ first →
  first - run ≤ std.search_n_walk count value first run l ≤ first + length l ∧
  (std.search_n_walk count value first run l < first + length l ↔
   ∃ l1 l2, replicate run value ++ l = l1 ++ replicate count value ++ l2).
Proof.
  induction l as [|x l IH]; intros first run Hrun Hfirst; simpl.
  { split; [lia|]. split; [lia|]. intros (l1 & l2 & Hocc).
    apply (f_equal length) in Hocc.
    rewrite !length_app, !length_replicate in Hocc. simpl in Hocc. lia. }
  case_decide as Hx.
  - subst x. destruct (Nat.leb_spec count (S run)) as [Hle|Hgt].
    + split; [lia|]. split; [|lia]. intros _.
      exists [], l. simpl. replace count with (S run) by lia.
      by rewrite replicate_S_end, <-app_assoc.
    + destruct (IH (S first) (S run)) as [Hrange Hiff]; [lia|lia|].
      split; [lia|].
      replace (first + S (length l)) with (S first + length l) by lia.
      rewrite Hiff.
      by rewrite replicate_S_end, <-app_assoc.
  - destruct (IH (S first) 0) as [Hrange Hiff]; [lia|lia|].
    split; [lia|].
    replace (first + S (length l)) with (S first + length l) by lia.
    rewrite Hiff. simpl. split.
    + intros (l1 & l2 & ->).
      exists (replicate run value ++ x :: l1), l2. by rewrite <-app_assoc.
    + intros (l1 & l2 & Hocc).
      destruct (decide (length l1 ≤ run)) as [Hshort|Hlong].
      * (* the occurrence would cover the position of [x] *)
        apply (f_equal (λ k, k !! run)) in Hocc.
        rewrite lookup_app_r in Hocc by (rewrite length_replicate; lia).
        rewrite length_replicate, Nat.sub_diag in Hocc. simpl in Hocc.
        rewrite lookup_app_r in Hocc by lia.
        rewrite lookup_app_l in Hocc by (rewrite length_replicate; lia).
        rewrite lookup_replicate_2 in Hocc by lia. congruence.
      * rewrite <-(take_drop (S run) l1) in Hocc.
        rewrite <-app_assoc in Hocc.
        replace (replicate run value ++ x :: l)
          with ((replicate run value ++ [x]) ++ l) in Hocc
          by (by rewrite <-app_assoc).
        apply app_inj_1 in Hocc as [_ Hocc].
        { eauto. }
        rewrite length_app, length_replicate, length_take. cbn [length]. lia.
Qed.
Lemma in_quote_iff (cont needle : list T) :
  in_quote cont needle = true ↔
  cont ≠ [] ∧ ∃ l1 l2, cont = l1 ++ needle ++ l2.
Proof.
  unfold in_quote, std.search.
  destruct (search_from_spec needle cont 0) as [Hrange Hiff]. simpl in *.
  rewrite <-Hiff, negb_true_iff, Nat.eqb_neq. lia.
Qed.

Lemma consecutive_values_iff (c : list T) (count : Z) (v : T) :
  consecutive_values c count v = true ↔
  c ≠ [] ∧ ∃ l1 l2, c = l1 ++ replicate (Z.to_nat count) v ++ l2.
Proof.
  unfold consecutive_values, std.search_n.
  rewrite negb_true_iff, Nat.eqb_neq.
  destruct (Z.leb_spec count 0) as [Hle|Hgt].
  - replace (Z.to_nat count) with 0 by lia. simpl. split.
    + intros Hlen. split; [by intros ->|]. by exists [], c.
    + intros [Hc _] Hlen. by destruct c.
  - destruct (search_n_walk_spec (Z.to_nat count) v c 0 0)
      as [Hrange Hiff]; [lia|lia|].
    simpl in *. split.
    + intros Hne. assert (std.search_n_walk (Z.to_nat count) v 0 0 c
                          < length c) as Hlt by lia.
      apply Hiff in Hlt as (l1 & l2 & ->). split; [|eauto].
      intros Hnil. apply (f_equal length) in Hnil.
      rewrite !length_app, length_replicate in Hnil. simpl in Hnil. lia.
    + intros [_ Hocc]. apply Hiff in Hocc. lia.
Qed.
End SearchFacts.

(** ** [mirror_ends] and [is_palindrome] *)

Section MirrorFacts.
Context {T : Type} `{EqDecision T}.
Implicit Types l : list T.

Lemma equal_take l1 : ∀ l2,
  length l1 ≤ length l2 →
  std.equal l1 l2 = true ↔ l1 = take (length l1) l2.
Proof.
  induction l1 as [|x l1 IH]; intros l2 Hlen; simpl; [done|].
  destruct l2 as [|y l2]; simpl in *; [lia|].
  case_decide as Hxy.
  - subst. rewrite IH by lia. split; [by intros <-|by intros [= ?]].
  - split; [done|]. by intros [= ? ?].
Qed.

Lemma mismatch_spec l1 : ∀ l2,
  std.mismatch l1 l2 ≤ length l1 ∧ std.mismatch l1 l2 ≤ length l2 ∧
  take (std.mismatch l1 l2) l1 = take (std.mismatch l1 l2) l2 ∧
  (std.mismatch l1 l2 < length l1 → std.mismatch l1 l2 < length l2 →
   l1 !! std.mismatch l1 l2 ≠ l2 !! std.mismatch l1 l2).
Proof.
  induction l1 as [|x l1 IH]; intros l2; simpl.
  { split_and!; [lia|lia|done|lia]. }
  destruct l2 as [|y l2]; simpl.
  { split_and!; [lia|lia|done|lia]. }
  case_decide as Hxy; simpl.
  - subst. destruct (IH l2) as (? & ? & Htake & Hne).
    split_and!; [lia|lia|by rewrite Htake|]. intros ??. apply Hne; lia.
  - split_and!; [lia|lia|done|]. intros _ _. by intros [= ?].
Qed.

Lemma mismatch_ge l1 : ∀ l2 m,
  m ≤ length l1 → m ≤ length l2 → take m l1 = take m l2 →
  m ≤ std.mismatch l1 l2.
Proof.
  induction l1 as [|x l1 IH]; intros l2 m Hm1 Hm2 Htake; simpl in *; [lia|].
  destruct l2 as [|y l2]; simpl in *; [lia|].
  destruct m as [|m]; [lia|]. simpl in Htake. simplify_eq.
  rewrite decide_True by done.
  apply le_n_S, IH; [lia|lia|done].
Qed.

Lemma half_bounds (n : nat) : 2 * (n / 2) ≤ n ∧ n < 2 * (n / 2) + 2.
Proof.
  pose proof (Nat.div_mod_eq n 2).
  pose proof (Nat.mod_upper_bound n 2). lia.
Qed.

(** A sequence whose first half reads like the first half of its reverse
    is its own reverse. *)
Lemma half_mirror l :
  take (length l / 2) l = take (length l / 2) (reverse l) → l = reverse l.
Proof.
  intros Htake. pose proof (half_bounds (length l)) as [Hh1 Hh2].
  assert (∀ i, i < length l / 2 → l !! i = l !! (length l - S i)) as Hhalf.
  { intros i Hi. rewrite <-reverse_lookup by lia.
    rewrite <-(lookup_take_lt l (length l / 2)) by done.
    by rewrite Htake, lookup_take_lt. }
  apply list_eq. intros i.
  destruct (decide (i < length l)) as [Hi|Hi].
  2:{ rewrite !lookup_ge_None_2; [done|rewrite length_reverse; lia|lia]. }
  rewrite reverse_lookup by done.
  destruct (decide (i < length l / 2)) as [?|?]; [by apply Hhalf|].
  destruct (decide (length l - S i < length l / 2)) as [Hj|Hj].
  - rewrite (Hhalf (length l - S i)) by done. f_equal. lia.
  - f_equal. lia.
Qed.
End MirrorFacts.

(** [is_palindrome] compares the first half only, and decides whether the
    string reads the same backwards. *)
Lemma is_palindrome_reverse (s_ : list char) :
  is_palindrome s_ = true ↔ s_ = reverse s_.
Proof.
  unfold is_palindrome.
  pose proof (half_bounds (length s_)) as [Hh _].
  assert (length (take (length s_ / 2) s_) = length s_ / 2) as Hlen
    by (rewrite length_take; lia).
  rewrite equal_take by (rewrite length_reverse, Hlen; lia).
  rewrite Hlen. split; [apply half_mirror|].
  intros Hrev. by rewrite <-Hrev.
Qed.

Lemma mirror_ends_length (input : list char) :
  length (mirror_ends input) = std.mismatch input (reverse input).
Proof.
  unfold mirror_ends. rewrite length_take.
  pose proof (mismatch_spec input (reverse input)) as [? _]. lia.
Qed.

Lemma mirror_ends_whole (input : list char) :
  mirror_ends input = input ↔ input = reverse input.
Proof.
  pose proof (mismatch_spec input (reverse input)) as (Hk & _ & Htake & _).
  split.
  - intros Hwhole. apply (f_equal length) in Hwhole.
    rewrite mirror_ends_length in Hwhole.
    rewrite Hwhole in Htake.
    rewrite take_ge in Htake by done.
    by rewrite take_ge in Htake by (by rewrite length_reverse).
  - intros Hrev. unfold mirror_ends. apply take_ge.
    apply mismatch_ge; [done|by rewrite length_reverse|by rewrite <-Hrev].
Qed.

(** ** [abs_compare], [f_gen] and the generators *)



Lemma seqZ_succ (i : Z) (n : nat) :
  seqZ i (Z.of_nat (S n)) = i :: seqZ (i + 1) (Z.of_nat n).
Proof.
  rewrite seqZ_cons by lia. f_equal. f_equal; lia.
Qed.

(** [generate] with [f_gen] writes the successive values of the static
    counter over the range. *)
Lemma generate_loop_f_gen (n : nat) : ∀ (first : nat) (i : Z) (v : list Z),
  first + n ≤ length v → (i + Z.of_nat n ≤ INT_MAX)%Z →
  std.generate_loop n first f_gen i v =
    Some (take first v ++ seqZ i (Z.of_nat n) ++ drop (first + n) v,
          (i + Z.of_nat n)%Z).
Proof.
  induction n as [|n IH]; intros first i v Hlen Hmax.
  { simpl. rewrite Nat.add_0_r, Z.add_0_r, take_drop. done. }
  assert (f_gen i = Some (i, (i + 1)%Z)) as Hg
    by (unfold f_gen; by rewrite (proj2 (Z.ltb_lt i INT_MAX)) by lia).
  cbn [std.generate_loop]. rewrite Hg. cbn [mbind option_bind].
  rewrite IH by (rewrite ?length_insert; lia).
  rewrite (take_S_r _ first i) by (apply list_lookup_insert_eq; lia).
  rewrite take_insert_ge by lia. rewrite drop_insert_lt by lia.
  replace (first + S n) with (S first + n) by lia.
  rewrite seqZ_succ, <-app_assoc. simpl.
  do 2 f_equal. lia.
Qed.

(** ** More about the three sorts *)

Section FlatRange.
Context {T : Type} `{Less T}.
Implicit Types s : list T.

Lemma find_if_not_none p first last s :
  first ≤ last →
  (∀ k, first ≤ k < last → std.holds_at p s k = false) →
  std.find_if_not first last p s = first.
Proof.
  intros Hfl Hnone. unfold std.find_if_not.
  destruct (find_if_not_loop_spec p s (last - first) first) as (Hr & Ht & _).
  set (f := std.find_if_not_loop (last - first) first p s) in *.
  destruct (decide (f = first)) as [?|?]; [done|].
  assert (std.holds_at p s first = true) as Hfirst by (apply Ht; lia).
  rewrite Hnone in Hfirst by lia. done.
Qed.

Lemma find_if_not_all p first last s :
  first ≤ last →
  (∀ k, first ≤ k < last → std.holds_at p s k = true) →
  std.find_if_not first last p s = last.
Proof.
  intros Hfl Hall. unfold std.find_if_not.
  destruct (find_if_not_loop_spec p s (last - first) first) as (Hr & _ & Hf).
  set (f := std.find_if_not_loop (last - first) first p s) in *.
  destruct (decide (f = last)) as [?|?]; [done|].
  assert (std.holds_at p s f = false) as Hlast by (apply Hf; lia).
  rewrite Hall in Hlast by lia. done.
Qed.

(** When every element of the range is neither less nor greater than the
    pivot, the two partition steps move nothing and the middle block is the
    whole range. *)
Lemma quicksort_partition_flat pivot first last s :
  valid_range first last s →
  (∀ k x, first ≤ k < last → s !! k = Some x →
          less x pivot = false ∧ less pivot x = false) →
  quicksort_partition pivot first last s = (s, first, last).
Proof.
  intros [Hfl Hlen] Hflat. unfold quicksort_partition.
  assert (∀ k, first ≤ k < last →
               std.holds_at (λ em, less em pivot) s k = false) as Hp1.
  { intros k Hk. unfold std.holds_at.
    destruct (s !! k) as [x|] eqn:Hx; [|done]. by apply (Hflat k). }
  assert (∀ k, first ≤ k < last →
               std.holds_at (λ em, negb (less pivot em)) s k = true) as Hp2.
  { intros k Hk. unfold std.holds_at.
    destruct (lookup_lt_is_Some_2 s k) as [x Hx]; [lia|]. rewrite Hx.
    destruct (Hflat k x Hk Hx) as [_ ->]. done. }
  rewrite partition_id, find_if_not_none; [|done|done|done|].
  2:{ intros j k ??? Hk. rewrite Hp1 in Hk by lia. done. }
  rewrite partition_id, find_if_not_all; [done|done|done|done|].
  intros j k ??? _. apply Hp2. lia.
Qed.

(** The sizes of the blocks are fixed by the contents of the range. *)
Lemma filter_length_perm (f : T → bool) (l l' : list T) :
  l ≡ₚ l' → length (List.filter f l) = length (List.filter f l').
Proof.
  induction 1 as [|x l l' _ IH|x y l|l1 l2 l3 _ IH1 _ IH2]; simpl.
  - done.
  - destruct (f x); simpl; lia.
  - destruct (f x), (f y); simpl; lia.
  - lia.
Qed.

Lemma filter_all (f : T → bool) (l : list T) :
  (∀ x, x ∈ l → f x = true) → List.filter f l = l.
Proof.
  intros Hall. rewrite <-(List.filter_true l) at 2.
  apply List.filter_ext_in. intros x Hx. apply Hall. by apply list_elem_of_In.
Qed.

Lemma filter_none (f : T → bool) (l : list T) :
  (∀ x, x ∈ l → f x = false) → List.filter f l = [].
Proof.
  intros Hnone. rewrite <-(List.filter_false l).
  apply List.filter_ext_in. intros x Hx. apply Hnone. by apply list_elem_of_In.
Qed.
End FlatRange.

Section MergeSortDepth.
Context {T : Type} `{Less T}.
Implicit Types s : list T.

Lemma halves_bound (n d : nat) :
  n ≤ 2 * d → n / 2 ≤ d ∧ n - n / 2 ≤ d.
Proof. pose proof (half_bounds n). lia. Qed.

Lemma halves_exceed (n d : nat) : 2 * d < n → d < n - n / 2.
Proof. pose proof (half_bounds n). lia. Qed.

Lemma merge_sort_depth_returns fuel : ∀ first last s,
  last - first ≤ 2 ^ fuel → ∃ s', merge_sort fuel first last s = Some s'.
Proof.
  induction fuel as [|fuel IH]; intros first last s Hn; cbn [merge_sort].
  { simpl in Hn. rewrite (proj2 (Nat.ltb_ge 1 (last - first))) by lia. eauto. }
  destruct (Nat.ltb_spec 1 (last - first)) as [Hlt|Hge]; [|eauto].
  rewrite Nat.pow_succ_r' in Hn.
  destruct (halves_bound _ _ Hn) as [Hleft Hright].
  pose proof (halving_cursor first last Hlt) as Hmid.
  set (middle := first + (last - first) / 2) in *.
  destruct (IH first middle s) as [s1 ->]; [unfold middle; lia|].
  cbn [mbind option_bind].
  destruct (IH middle last s1) as [s2 ->]; [unfold middle; lia|].
  cbn [mbind option_bind]. eauto.
Qed.

Lemma merge_sort_depth_none fuel : ∀ first last s,
  2 ^ fuel < last - first → merge_sort fuel first last s = None.
Proof.
  induction fuel as [|fuel IH]; intros first last s Hn; cbn [merge_sort].
  { simpl in Hn. by rewrite (proj2 (Nat.ltb_lt 1 (last - first))) by lia. }
  rewrite Nat.pow_succ_r' in Hn.
  assert (1 ≤ 2 ^ fuel) by (apply Nat.neq_0_lt_0, Nat.pow_nonzero; lia).
  rewrite (proj2 (Nat.ltb_lt 1 (last - first))) by lia.
  pose proof (halves_exceed _ _ Hn) as Hright.
  set (middle := first + (last - first) / 2) in *.
  destruct (merge_sort fuel first middle s) as [s1|];
    cbn [mbind option_bind]; [|done].
  rewrite IH; [done|unfold middle; lia].
Qed.
End MergeSortDepth.

(** X1.  [in_quote(cont, s)] is true exactly when the container is not
    empty and [s] occurs in it as a block of consecutive elements.  In
    particular it is false for an empty container, even when [s] is empty
    too, and true for an empty [s] in any other container. *)
Theorem in_quote_occurs {T : Type} `{EqDecision T} (cont s : list T) :
  (in_quote cont s = true ↔ cont ≠ [] ∧ ∃ l1 l2, cont = l1 ++ s ++ l2) ∧
  in_quote [] s = false ∧
  (in_quote cont [] = true ↔ cont ≠ []).
Proof.
  split_and!; [apply in_quote_iff| |].
  - apply not_true_iff_false. rewrite in_quote_iff. by intros [? _].
  - rewrite in_quote_iff. split; [by intros [? _]|].
    intros ?. split; [done|]. by exists [], cont.
Qed.

(** X2.  [consecutive_values(c, count, v)] is true exactly when the
    container is not empty and holds [count] consecutive elements equal to
    [v]; a [count] of zero or less asks for no element at all, so the
    answer is then whether the container is not empty. *)
Theorem consecutive_values_occurs {T : Type} `{EqDecision T}
    (c : list T) (count : Z) (v : T) :
  (consecutive_values c count v = true ↔
   c ≠ [] ∧ ∃ l1 l2, c = l1 ++ replicate (Z.to_nat count) v ++ l2) ∧
  ((count ≤ 0)%Z → (consecutive_values c count v = true ↔ c ≠ [])).
Proof.
  split; [apply consecutive_values_iff|]. intros Hle.
  rewrite consecutive_values_iff.
  replace (Z.to_nat count) with 0 by lia. simpl.
  split; [by intros [? _]|]. intros ?. split; [done|]. by exists [], c.
Qed.

(** X3.  [is_palindrome], which compares only the first half of the string
    with the start of the reversed string, is true exactly when the whole
    string is equal to its reverse. *)
Theorem is_palindrome_iff_reverse (s_ : list char) :
  is_palindrome s_ = true ↔ s_ = reverse s_.
Proof.
  split; intros Hpal.
  - by apply is_palindrome_reverse.
  - by apply is_palindrome_reverse.
Qed.

(** X4.  [mirror_ends(in)] is a prefix of [in], and read backwards it is a
    suffix of [in]. *)
Theorem mirror_ends_both_ends (input : list char) :
  mirror_ends input `prefix_of` input ∧
  reverse (mirror_ends input) `suffix_of` input.
Proof.
  split; [apply prefix_take|].
  unfold mirror_ends.
  pose proof (mismatch_spec input (reverse input)) as (_ & _ & Htake & _).
  rewrite Htake, reverse_take, reverse_involutive.
  apply suffix_drop.
Qed.



(** X6.  [mirror_ends(in)] returns the whole string exactly when
    [is_palindrome(in)] is true. *)
Theorem mirror_ends_whole_iff_palindrome (input : list char) :
  mirror_ends input = input ↔ is_palindrome input = true.
Proof.
  rewrite is_palindrome_reverse. split; intros Hwhole.
  - by apply mirror_ends_whole.
  - by apply mirror_ends_whole.
Qed.

(** X7.  Unless the string is a palindrome, the two mirrored ends that
    [mirror_ends] finds do not overlap: the result is shorter than half of
    the string. *)
Theorem mirror_ends_no_overlap (input : list char) :
  is_palindrome input = false →
  2 * length (mirror_ends input) < length input.
Proof.
  intros Hpal. rewrite mirror_ends_length.
  pose proof (mismatch_spec input (reverse input))
    as (Hk & _ & Htake & Hne).
  set (k := std.mismatch input (reverse input)) in *.
  assert (k < length input) as Hlt.
  { destruct (decide (k < length input)) as [?|?]; [done|].
    assert (is_palindrome input = true) as Htrue; [|congruence].
    apply is_palindrome_reverse.
    rewrite !take_ge in Htake by (rewrite ?length_reverse; lia). done. }
  destruct (decide (2 * k < length input)) as [?|Hover]; [done|].
  (* the mirror image of position [k] lies before [k], where the string
     and its reverse agree *)
  exfalso. apply Hne; [done|by rewrite length_reverse|].
  rewrite reverse_lookup by done.
  assert (input !! (length input - S k)
          = reverse input !! (length input - S k)) as Hmirror.
  { rewrite <-(lookup_take_lt input k) by lia.
    rewrite Htake. apply lookup_take_lt. lia. }
  rewrite Hmirror, reverse_lookup by lia. f_equal. lia.
Qed.

Lemma mirror_ends_no_overlap_witness :
  is_palindrome (chars "abca") = false ∧
  2 * length (mirror_ends (chars "abca")) < length (chars "abca").
Proof.
  assert (is_palindrome (chars "abca") = false) as Hpal
    by (vm_compute; reflexivity).
  split; [exact Hpal|].
  exact (mirror_ends_no_overlap (chars "abca") Hpal).
Defined.



(** X9.  [std::generate] with [f_gen] over a whole vector writes the
    consecutive values [i], [i + 1], ... of the static counter, whatever
    the vector held, and leaves the counter advanced by the length of the
    vector: a later call goes on from there.  (From the initial [i = 1]
    the k-th value is k.) *)
Theorem f_gen_generate (i : Z) (v : list Z) :
  (i + Z.of_nat (length v) ≤ INT_MAX)%Z →
  std.generate 0 (length v) f_gen i v =
    Some (seqZ i (Z.of_nat (length v)), (i + Z.of_nat (length v))%Z).
Proof.
  intros Hmax. unfold std.generate. rewrite Nat.sub_0_r.
  rewrite generate_loop_f_gen by (done || lia).
  rewrite take_0, Nat.add_0_l, drop_all. simpl. by rewrite app_nil_r.
Qed.

Lemma f_gen_generate_witness :
  (f_gen_initial + Z.of_nat (length [0; 0; 0; 0; 0]%Z) ≤ INT_MAX)%Z ∧
  std.generate 0 (length [0; 0; 0; 0; 0]%Z) f_gen f_gen_initial
    [0; 0; 0; 0; 0]%Z
  = Some (seqZ f_gen_initial (Z.of_nat (length [0; 0; 0; 0; 0]%Z)),
          (f_gen_initial + Z.of_nat (length [0; 0; 0; 0; 0]%Z))%Z).
Proof.
  assert (f_gen_initial + Z.of_nat (length [0; 0; 0; 0; 0]%Z) ≤ INT_MAX)%Z
    as Hmax by (vm_compute; discriminate).
  split; [exact Hmax|].
  exact (f_gen_generate f_gen_initial [0; 0; 0; 0; 0]%Z Hmax).
Defined.

(** X10.  As the source notes, [std::generate] with the counting lambda
    [[n = 0] () mutable { return n++; }] fills a range as
    [std::iota(first, last, 0)] does, also where the [int] overflows. *)
Theorem counter_generate_is_iota (first last : nat) (v : list Z) :
  fst <$> std.generate first last counter counter_initial v =
    std.iota first last 0 v.
Proof.
  assert (∀ (k i : nat) (n : Z) (w : list Z),
            fst <$> std.generate_loop k i counter n w
            = std.iota_loop k i n w) as Hloop.
  { induction k as [|k IH]; intros i n w; [done|].
    cbn [std.generate_loop std.iota_loop].
    destruct (n <? INT_MAX)%Z eqn:Hn.
    - assert (counter n = Some (n, (n + 1)%Z)) as ->
        by (unfold counter; by rewrite Hn).
      cbn [mbind option_bind]. apply IH.
    - assert (counter n = None) as -> by (unfold counter; by rewrite Hn).
      done. }
  apply Hloop.
Qed.

(** X11.  [quicksort] relies on [operator<] being irreflexive: with a
    comparison that holds between every element and itself (such as [<=])
    a call on a nonempty range of a sequence does not return, whatever the
    budget: the pivot falls into the first block and the first recursive
    call is never on an empty range. *)
Theorem quicksort_reflexive_never_returns {T : Type} `{Less T}
    (first last fuel : nat) (s : list T) :
  (∀ x : T, less x x = true) →
  valid_range first last s → first < last →
  quicksort fuel first last s = None.
Proof.
  intros less_reflexive. revert first last s.
  induction fuel as [|fuel IH]; intros first last s Hv Hfl; simpl.
  { by rewrite (proj2 (Nat.eqb_neq first last)) by lia. }
  rewrite (proj2 (Nat.eqb_neq first last)) by lia.
  pose proof (middle_cursor_range first last Hfl) as Hmid.
  destruct (lookup_lt_is_Some_2 s (middle_cursor first last))
    as [pivot Hpiv]; [destruct Hv; lia|].
  rewrite Hpiv; simpl.
  destruct (quicksort_partition pivot first last s) as [[s2 m1] m2] eqn:Hqp.
  destruct (quicksort_partition_spec _ _ _ _ _ _ _ Hv Hqp)
    as (Hf & Hp & ? & ? & ? & HL & HE & HG).
  destruct (frame_perm_lookup first last s2 s (middle_cursor first last) pivot)
    as (k & Hk & Hx);
    [by eapply frame_valid_range|by apply frame_sym|done|done|done|].
  (* the pivot is not in the second or the third block *)
  assert (k < m1) as Hkm.
  { destruct (decide (k < m1)) as [?|?]; [done|].
    destruct (decide (k < m2)) as [?|?].
    - destruct (HE k pivot) as [Hlt _]; [lia|done|].
      rewrite less_reflexive in Hlt. done.
    - destruct (HG k pivot) as [Hlt _]; [lia|done|].
      rewrite less_reflexive in Hlt. done. }
  rewrite IH; [done| |lia].
  assert (length s2 = length s) as Hl2 by apply Hf.
  destruct Hv. split; [lia|rewrite Hl2; lia].
Qed.

Lemma quicksort_reflexive_never_returns_witness :
  (∀ x : Loose, less x x = true) ∧
  valid_range 0 2 [mkLoose 7; mkLoose 3] ∧ 0 < 2 ∧
  quicksort 50 0 2 [mkLoose 7; mkLoose 3] = None.
Proof.
  assert (∀ x : Loose, less x x = true) as Hrefl
    by (intros x; apply Z.leb_refl).
  assert (valid_range 0 2 [mkLoose 7; mkLoose 3]) as Hv
    by (split; simpl; lia).
  assert (0 < 2) as Hfl by lia.
  split; [exact Hrefl|]. split; [exact Hv|]. split; [exact Hfl|].
  exact (quicksort_reflexive_never_returns 0 2 50 [mkLoose 7; mkLoose 3]
           Hrefl Hv Hfl).
Defined.

(** X12.  On a range whose elements are pairwise incomparable (all
    duplicates, or all equivalent) [quicksort] needs one level of
    recursion only and returns the sequence as it was: both recursive
    calls are on empty ranges. *)
Theorem quicksort_flat_range {T : Type} `{Less T}
    (first last : nat) (s : list T) :
  valid_range first last s →
  (∀ x y, x ∈ slice first last s → y ∈ slice first last s →
          less x y = false) →
  quicksort 1 first last s = Some s.
Proof.
  intros Hv Hflat. simpl.
  destruct (Nat.eqb_spec first last) as [|Hne]; [done|].
  assert (first < last) as Hfl by (destruct Hv; lia).
  pose proof (middle_cursor_range first last Hfl) as Hmid.
  destruct (lookup_lt_is_Some_2 s (middle_cursor first last))
    as [pivot Hpiv]; [destruct Hv; lia|].
  rewrite Hpiv. simpl.
  rewrite quicksort_partition_flat; [|done|].
  - simpl. by rewrite !Nat.eqb_refl.
  - intros k x Hk Hx.
    assert (x ∈ slice first last s) by (apply elem_of_slice; eauto).
    assert (pivot ∈ slice first last s) by (apply elem_of_slice; eauto).
    split; by apply Hflat.
Qed.

Lemma quicksort_flat_range_witness :
  valid_range 1 4 [mkTagged 9 0; mkTagged 7 1; mkTagged 7 2; mkTagged 7 3] ∧
  (∀ x y,
     x ∈ slice 1 4 [mkTagged 9 0; mkTagged 7 1; mkTagged 7 2; mkTagged 7 3] →
     y ∈ slice 1 4 [mkTagged 9 0; mkTagged 7 1; mkTagged 7 2; mkTagged 7 3] →
     less x y = false) ∧
  quicksort 1 1 4 [mkTagged 9 0; mkTagged 7 1; mkTagged 7 2; mkTagged 7 3]
    = Some [mkTagged 9 0; mkTagged 7 1; mkTagged 7 2; mkTagged 7 3].
Proof.
  assert (valid_range 1 4
            [mkTagged 9 0; mkTagged 7 1; mkTagged 7 2; mkTagged 7 3]) as Hv
    by (split; simpl; lia).
  assert (∀ x y,
     x ∈ slice 1 4 [mkTagged 9 0; mkTagged 7 1; mkTagged 7 2; mkTagged 7 3] →
     y ∈ slice 1 4 [mkTagged 9 0; mkTagged 7 1; mkTagged 7 2; mkTagged 7 3] →
     less x y = false) as Hflat.
  { intros x y Hx Hy. apply (Forall_forall (λ y, less x y = false)) in Hy;
      [exact Hy|].
    apply (Forall_forall (λ x, Forall (λ y, less x y = false)
       (slice 1 4 [mkTagged 9 0; mkTagged 7 1; mkTagged 7 2; mkTagged 7 3])))
      in Hx; [exact Hx|].
    vm_compute. repeat constructor. }
  split; [exact Hv|]. split; [exact Hflat|].
  exact (quicksort_flat_range 1 4
           [mkTagged 9 0; mkTagged 7 1; mkTagged 7 2; mkTagged 7 3]
           Hv Hflat).
Defined.

(** X13.  The two partition steps of [quicksort] reorder the range only;
    they leave in [middle2, last) the elements greater than the pivot, and
    the block boundaries are fixed by the contents of the range:
    [middle1 - first] is the number of elements less than the pivot and
    [last - middle2] the number of elements greater than it. *)
Theorem quicksort_partition_blocks {T : Type} `{Less T}
    (pivot : T) (first last : nat) (s s2 : list T) (middle1 middle2 : nat) :
  valid_range first last s →
  quicksort_partition pivot first last s = (s2, middle1, middle2) →
  (frame first last s s2 ∧ slice first last s2 ≡ₚ slice first last s) ∧
  (∀ k x, middle2 ≤ k < last → s2 !! k = Some x →
          less pivot x = true ∧ less x pivot = false) ∧
  middle1 - first =
    length (List.filter (λ x, less x pivot) (slice first last s)) ∧
  last - middle2 =
    length (List.filter (λ x, negb (less x pivot) && less pivot x)
              (slice first last s)).
Proof.
  intros Hv Hqp.
  destruct (quicksort_partition_spec _ _ _ _ _ _ _ Hv Hqp)
    as (Hf & Hp & ? & ? & ? & HL & HE & HG).
  pose proof (frame_slice_perm first last s s2 Hv Hf Hp) as Hsl.
  assert (length s2 = length s) as Hl2 by apply Hf.
  assert (slice first last s2 = slice first middle1 s2
            ++ slice middle1 middle2 s2 ++ slice middle2 last s2) as Hsplit.
  { rewrite (slice_app first middle1 last) by lia.
    by rewrite (slice_app middle1 middle2 last) by lia. }
  split_and!; [done|by symmetry| | |].
  - intros k x Hk Hx. destruct (HG k x Hk Hx). done.
  - rewrite (filter_length_perm _ _ _ Hsl), Hsplit, !List.filter_app.
    rewrite filter_all, !filter_none.
    + rewrite app_nil_r, slice_length; [done|].
      destruct Hv. split; [lia|rewrite Hl2; lia].
    + intros x (k & Hk & Hx)%elem_of_slice. by destruct (HG k x Hk Hx).
    + intros x (k & Hk & Hx)%elem_of_slice. by destruct (HE k x Hk Hx).
    + intros x (k & Hk & Hx)%elem_of_slice. by apply (HL k).
  - rewrite (filter_length_perm _ _ _ Hsl), Hsplit, !List.filter_app.
    rewrite (filter_none _ (slice first middle1 s2)),
      (filter_none _ (slice middle1 middle2 s2)),
      (filter_all _ (slice middle2 last s2)).
    + simpl. rewrite slice_length; [done|].
      destruct Hv. split; [lia|rewrite Hl2; lia].
    + intros x (k & Hk & Hx)%elem_of_slice.
      destruct (HG k x Hk Hx) as [-> ->]. done.
    + intros x (k & Hk & Hx)%elem_of_slice.
      destruct (HE k x Hk Hx) as [-> ->]. done.
    + intros x (k & Hk & Hx)%elem_of_slice.
      rewrite (HL k x Hk Hx). done.
Qed.

Lemma quicksort_partition_blocks_witness :
  valid_range 1 6 [9; 5; 3; 4; 1; 4; 0]%Z ∧
  quicksort_partition 4%Z 1 6 [9; 5; 3; 4; 1; 4; 0]%Z
    = ([9; 3; 1; 4; 4; 5; 0]%Z, 3, 5) ∧
  (frame 1 6 [9; 5; 3; 4; 1; 4; 0]%Z [9; 3; 1; 4; 4; 5; 0]%Z ∧
   slice 1 6 [9; 3; 1; 4; 4; 5; 0]%Z ≡ₚ slice 1 6 [9; 5; 3; 4; 1; 4; 0]%Z) ∧
  (∀ k x, 5 ≤ k < 6 → [9; 3; 1; 4; 4; 5; 0]%Z !! k = Some x →
          less 4%Z x = true ∧ less x 4%Z = false) ∧
  3 - 1 = length (List.filter (λ x, less x 4%Z)
                    (slice 1 6 [9; 5; 3; 4; 1; 4; 0]%Z)) ∧
  6 - 5 = length (List.filter (λ x, negb (less x 4%Z) && less 4%Z x)
                    (slice 1 6 [9; 5; 3; 4; 1; 4; 0]%Z)).
Proof.
  assert (valid_range 1 6 [9; 5; 3; 4; 1; 4; 0]%Z) as Hv
    by (split; simpl; lia).
  assert (quicksort_partition 4%Z 1 6 [9; 5; 3; 4; 1; 4; 0]%Z
            = ([9; 3; 1; 4; 4; 5; 0]%Z, 3, 5)) as Hqp
    by (vm_compute; reflexivity).
  split; [exact Hv|]. split; [exact Hqp|].
  exact (quicksort_partition_blocks 4%Z 1 6 [9; 5; 3; 4; 1; 4; 0]%Z
           [9; 3; 1; 4; 4; 5; 0]%Z 3 5 Hv Hqp).
Defined.

(** X14.  The recursion of [merge_sort] is exactly as deep as the
    logarithm of the length of the range, whatever the elements and the
    ordering are: a call on a range of a sequence returns within [d]
    levels of recursion if and only if the range has at most [2 ^ d]
    elements. *)
Theorem merge_sort_recursion_depth {T : Type} `{Less T}
    (fuel first last : nat) (s : list T) :
  valid_range first last s →
  (∃ s', merge_sort fuel first last s = Some s') ↔ last - first ≤ 2 ^ fuel.
Proof.
  intros _. split; [|apply merge_sort_depth_returns].
  intros [s' Hs'].
  destruct (decide (last - first ≤ 2 ^ fuel)) as [?|Hgt]; [done|].
  rewrite merge_sort_depth_none in Hs' by lia. done.
Qed.

Lemma merge_sort_recursion_depth_witness :
  valid_range 0 5 [5; 3; 1; 4; 2]%Z ∧
  ((∃ s', merge_sort 2 0 5 [5; 3; 1; 4; 2]%Z = Some s') ↔ 5 - 0 ≤ 2 ^ 2) ∧
  ((∃ s', merge_sort 3 0 5 [5; 3; 1; 4; 2]%Z = Some s') ↔ 5 - 0 ≤ 2 ^ 3).
Proof.
  assert (valid_range 0 5 [5; 3; 1; 4; 2]%Z) as Hv by (split; simpl; lia).
  split; [exact Hv|]. split.
  - exact (merge_sort_recursion_depth 2 0 5 [5; 3; 1; 4; 2]%Z Hv).
  - exact (merge_sort_recursion_depth 3 0 5 [5; 3; 1; 4; 2]%Z Hv).
Defined.

(** X15.  For a strict weak ordering, a range that is sorted already is
    left exactly as it is by each of the three sorts: not even equivalent
    elements change places. *)
Theorem sorted_range_unchanged {T : Type} `{StrictWeakOrder T}
    (first last fuel : nat) (s : list T) :
  valid_range first last s → last - first ≤ fuel →
  sorted_range first last s →
  selection_sort fuel first last s = Some s ∧
  quicksort fuel first last s = Some s ∧
  merge_sort fuel first last s = Some s.
Proof.
  intros Hv Hfuel Hsorted. split_and!.
  - apply selection_sort_sorted; [apply Hv|done|done].
  - by apply quicksort_sorted_id.
  - apply merge_sort_sorted_id; [done|done|]. by apply slice_sorted_range.
Qed.

Lemma sorted_range_unchanged_witness :
  valid_range 0 4 [mkTagged 1 1; mkTagged 1 0; mkTagged 2 5; mkTagged 2 3] ∧
  4 - 0 ≤ 4 ∧
  sorted_range 0 4
    [mkTagged 1 1; mkTagged 1 0; mkTagged 2 5; mkTagged 2 3] ∧
  selection_sort 4 0 4
    [mkTagged 1 1; mkTagged 1 0; mkTagged 2 5; mkTagged 2 3]
    = Some [mkTagged 1 1; mkTagged 1 0; mkTagged 2 5; mkTagged 2 3] ∧
  quicksort 4 0 4 [mkTagged 1 1; mkTagged 1 0; mkTagged 2 5; mkTagged 2 3]
    = Some [mkTagged 1 1; mkTagged 1 0; mkTagged 2 5; mkTagged 2 3] ∧
  merge_sort 4 0 4 [mkTagged 1 1; mkTagged 1 0; mkTagged 2 5; mkTagged 2 3]
    = Some [mkTagged 1 1; mkTagged 1 0; mkTagged 2 5; mkTagged 2 3].
Proof.
  assert (valid_range 0 4
            [mkTagged 1 1; mkTagged 1 0; mkTagged 2 5; mkTagged 2 3]) as Hv
    by (split; simpl; lia).
  assert (4 - 0 ≤ 4) as Hfuel by (simpl; lia).
  assert (sorted_range 0 4
            [mkTagged 1 1; mkTagged 1 0; mkTagged 2 5; mkTagged 2 3])
    as Hsorted by (apply sorted_range_slice; vm_compute; repeat constructor).
  split; [exact Hv|]. split; [exact Hfuel|]. split; [exact Hsorted|].
  exact (sorted_range_unchanged 0 4 4
           [mkTagged 1 1; mkTagged 1 0; mkTagged 2 5; mkTagged 2 3]
           Hv Hfuel Hsorted).
Defined.

(** X16.  Whatever [operator<] is, even one that is no ordering at all,
    what a call of one of the three sorts returns holds in the range the
    elements it held before, each as many times: nothing is lost or
    duplicated. *)
Theorem sorts_permute_any_comparison {T : Type} `{Less T}
    (first last : nat) (s : list T) :
  valid_range first last s →
  ∀ fuel s',
    (selection_sort fuel first last s = Some s' →
     slice first last s' ≡ₚ slice first last s) ∧
    (quicksort fuel first last s = Some s' →
     slice first last s' ≡ₚ slice first last s) ∧
    (merge_sort fuel first last s = Some s' →
     slice first last s' ≡ₚ slice first last s).
Proof.
  intros Hv fuel s'. split_and!; intros Hs; symmetry.
  - apply selection_sort_frame in Hs as [Hf Hp]; [|apply Hv].
    by apply frame_slice_perm.
  - apply quicksort_frame in Hs as [Hf Hp]; [|done].
    by apply frame_slice_perm.
  - apply merge_sort_frame in Hs as [Hf Hp]; [|done].
    by apply frame_slice_perm.
Qed.

Lemma sorts_permute_any_comparison_witness :
  valid_range 0 3 [mkLoose 7; mkLoose 3; mkLoose 7] ∧
  merge_sort 2 0 3 [mkLoose 7; mkLoose 3; mkLoose 7]
    = Some [mkLoose 3; mkLoose 7; mkLoose 7] ∧
  slice 0 3 [mkLoose 3; mkLoose 7; mkLoose 7]
    ≡ₚ slice 0 3 [mkLoose 7; mkLoose 3; mkLoose 7].
Proof.
  assert (valid_range 0 3 [mkLoose 7; mkLoose 3; mkLoose 7]) as Hv
    by (split; simpl; lia).
  assert (merge_sort 2 0 3 [mkLoose 7; mkLoose 3; mkLoose 7]
            = Some [mkLoose 3; mkLoose 7; mkLoose 7]) as Hm
    by (vm_compute; reflexivity).
  split; [exact Hv|]. split; [exact Hm|].
  exact (proj2 (proj2 (sorts_permute_any_comparison 0 3
                         [mkLoose 7; mkLoose 3; mkLoose 7] Hv
                         2 [mkLoose 3; mkLoose 7; mkLoose 7])) Hm).
Defined.

(** X17.  The two searching helpers agree: asking
    [consecutive_values(c, count, v)] is asking [in_quote] for the block of
    [count] copies of [v]. *)
Theorem consecutive_values_as_in_quote {T : Type} `{EqDecision T}
    (c : list T) (count : Z) (v : T) :
  consecutive_values c count v = in_quote c (replicate (Z.to_nat count) v).
Proof.
  destruct (consecutive_values c count v) eqn:Hcv.
  - symmetry. apply in_quote_iff. by apply consecutive_values_iff.
  - symmetry. apply not_true_iff_false. intros Hiq.
    apply in_quote_iff, consecutive_values_iff in Hiq. congruence.
Qed.
